(** * scripts/test-matrix.py: the local test-matrix runner

    A shallow embedding of [scripts/test-matrix.py] and the properties
    of its version selection, matrix expansion, environment parsing,
    variable substitution and step execution.

    Conventions of the embedding
    - a Python [str] is a list of Unicode code points ([N]);
    - a Python [dict] is an association list in insertion order with
      unique keys ([dict_set] keeps the position of an existing key);
    - the two regular expressions of the script are values of a small
      regex syntax, interpreted by a backtracking matcher that follows
      the semantics of Python's [re] (greedy repetition, ordered
      alternation, capture groups, [\b]);
    - the side effects of the script (terminal messages, log file
      writes, child processes) are recorded as a trace of events; an
      uncaught exception ([KeyError], [SystemExit]) ends a computation;
    - what the script obtains from its platform is a parameter: the
      inherited environment, [os.path.join], the outcome of running a
      shell command, and the Unicode alphanumeric table used by [\b]. *)

From Stdlib Require Import Ascii String.
From Stdlib Require Import NArith List Bool Arith Lia DecimalNat.
Import ListNotations.

Set Implicit Arguments.

(** ** Strings *)

Definition char := N.
Definition str := list char.

Bind Scope N_scope with char.

(** A literal of the source, as code points. *)
Definition lit (s : String.string) : str :=
  List.map Ascii.N_of_ascii (String.list_ascii_of_string s).

Arguments lit s%_string.

Fixpoint str_eqb (a b : str) : bool :=
  match a, b with
  | [], [] => true
  | x :: a', y :: b' => N.eqb x y && str_eqb a' b'
  | _, _ => false
  end.

Local Open Scope N_scope.

Definition in_range (lo hi c : char) : bool := N.leb lo c && N.leb c hi.

(** [[A-Za-z0-9_]] *)
Definition is_name_char (c : char) : bool :=
  in_range 65 90 c || in_range 97 122 c || in_range 48 57 c || N.eqb c 95.

(** Unicode white space, as tested by [str.strip] and by [\s] in a
    [str] pattern (CPython's [_PyUnicode_IsWhitespace]). *)
Definition is_space (c : char) : bool :=
  in_range 9 13 c || in_range 28 32 c || N.eqb c 133 || N.eqb c 160
  || N.eqb c 5760 || in_range 8192 8202 c || N.eqb c 8232 || N.eqb c 8233
  || N.eqb c 8239 || N.eqb c 8287 || N.eqb c 12288.

(** [\S] *)
Definition is_nonspace (c : char) : bool := negb (is_space c).

Definition dquote : char := 34.

(** Every character but the double quote. *)
Definition is_not_dquote (c : char) : bool := negb (N.eqb c dquote).

Local Close Scope N_scope.

Fixpoint lstrip (s : str) : str :=
  match s with
  | c :: s' => if is_space c then lstrip s' else s
  | [] => []
  end.

(** [s.strip()] *)
Definition strip (s : str) : str := rev (lstrip (rev (lstrip s))).

(** ** Regular expressions

    The fragment of Python's [re] syntax that the script uses.
    Repetition is only applied to character classes there. *)

Inductive regex : Type :=
| Chr (c : char)                  (* a literal character *)
| Plus (cls : char -> bool)       (* [cls]+, greedy *)
| Star (cls : char -> bool)       (* [cls]*, greedy *)
| Cat (r1 r2 : regex)             (* r1 r2 *)
| Alt (r1 r2 : regex)             (* r1|r2, left first *)
| Grp (n : nat) (r : regex)       (* capture group number n *)
| WordBoundary (word : char -> bool).   (* \b, for the word characters [word] *)

Definition groups := list (nat * str).

(** [m.group(n)]; [None] when the group took no part in the match. *)
Fixpoint group (n : nat) (g : groups) : option str :=
  match g with
  | [] => None
  | (i, t) :: g' => if Nat.eqb i n then Some t else group n g'
  end.

(** A successful match: the groups, the character before the end of
    the match, and the text after it. *)
Definition matched : Type := groups * option char * str.

(** Greedy repetition of a class: as many characters as possible first,
    giving them back one at a time while the continuation fails. *)
Fixpoint rep (cls : char -> bool) (prev : option char) (s : str)
    (k : option char -> str -> option matched) : option matched :=
  match s with
  | c :: s' =>
      if cls c then
        match rep cls (Some c) s' k with
        | Some m => Some m
        | None => k prev s
        end
      else k prev s
  | [] => k prev s
  end.

(** [\b]: the characters on the two sides differ in being word
    characters; outside the string there is no word character. *)
Definition word_before (word : char -> bool) (prev : option char) : bool :=
  match prev with Some c => word c | None => false end.

Definition word_here (word : char -> bool) (s : str) : bool :=
  match s with c :: _ => word c | [] => false end.

(** The backtracking matcher, in continuation-passing style: [k] is
    what remains of the pattern. [prev] is the character before the
    current position. *)
Fixpoint rmatch (r : regex) (prev : option char) (s : str) (g : groups)
    (k : option char -> str -> groups -> option matched) : option matched :=
  match r with
  | Chr c =>
      match s with
      | x :: s' => if N.eqb x c then k (Some x) s' g else None
      | [] => None
      end
  | Plus cls =>
      match s with
      | x :: s' =>
          if cls x then rep cls (Some x) s' (fun p t => k p t g) else None
      | [] => None
      end
  | Star cls => rep cls prev s (fun p t => k p t g)
  | Cat r1 r2 => rmatch r1 prev s g (fun p t g' => rmatch r2 p t g' k)
  | Alt r1 r2 =>
      match rmatch r1 prev s g k with
      | Some m => Some m
      | None => rmatch r2 prev s g k
      end
  | Grp n r1 =>
      rmatch r1 prev s g
        (fun p t g' => k p t ((n, firstn (length s - length t) s) :: g'))
  | WordBoundary word =>
      if xorb (word_before word prev) (word_here word s) then k prev s g
      else None
  end.

(** A match of the whole pattern that starts at the current position. *)
Definition match_here (r : regex) (prev : option char) (s : str)
  : option matched :=
  rmatch r prev s [] (fun p t g => Some (g, p, t)).

(** One piece of a scanned string: a character outside every match, or
    a match. *)
Inductive piece : Type :=
| Skipped (c : char)
| Match (g : groups).

(** The left-to-right scan shared by [re.finditer] and [re.sub]: try a
    match at the current position; after a match go on from its end,
    otherwise step over one character. [fuel] bounds the number of
    positions tried. (An empty match is reported and the scan steps
    over one character; the patterns of the script never match the
    empty string.) *)
Fixpoint scan (fuel : nat) (r : regex) (prev : option char) (s : str)
  : list piece :=
  match fuel with
  | O => []
  | S fuel' =>
      match match_here r prev s with
      | Some (g, p, t) =>
          if Nat.ltb (length t) (length s) then Match g :: scan fuel' r p t
          else
            match s with
            | c :: s' => Match g :: Skipped c :: scan fuel' r (Some c) s'
            | [] => [Match g]
            end
      | None =>
          match s with
          | c :: s' => Skipped c :: scan fuel' r (Some c) s'
          | [] => []
          end
      end
  end.

(** Every position of [s], the end included, is tried at most once. *)
Definition scan_all (r : regex) (s : str) : list piece :=
  scan (S (length s)) r None s.

(** [re.finditer(r, s)]: the matches, in order. *)
Fixpoint matches_of (ps : list piece) : list groups :=
  match ps with
  | [] => []
  | Skipped _ :: ps' => matches_of ps'
  | Match g :: ps' => g :: matches_of ps'
  end.

Definition finditer (r : regex) (s : str) : list groups :=
  matches_of (scan_all r s).

(** ** Dictionaries *)

Definition dict := list (str * str).

(** [d.get(k)] *)
Fixpoint dict_get (k : str) (d : dict) : option str :=
  match d with
  | [] => None
  | (k', v) :: d' => if str_eqb k k' then Some v else dict_get k d'
  end.

(** [d[k] = v]: an existing key keeps its place, a new one goes last. *)
Fixpoint dict_set (k v : str) (d : dict) : dict :=
  match d with
  | [] => [(k, v)]
  | (k', v') :: d' =>
      if str_eqb k k' then (k', v) :: d' else (k', v') :: dict_set k v d'
  end.

(** [d.update(other)] *)
Definition dict_update (d other : dict) : dict :=
  fold_left (fun acc kv => dict_set (fst kv) (snd kv) acc) other d.

(** [x in xs] on a list or a set of strings. *)
Definition mem (x : str) (xs : list str) : bool := existsb (str_eqb x) xs.

(** ** Exceptions *)

Inductive exn : Type :=
| KeyError (key : option str)
| SystemExit (code : nat).

Inductive result (A : Type) : Type :=
| Ok (a : A)
| Raise (e : exn).

Arguments Ok {A} a.
Arguments Raise {A} e.

(** ** The configuration (the document loaded from [.travis.yml]) *)

(** One entry of [matrix.include]; [None] is an absent key. *)
Record row : Type := {
  row_rust : option str;
  row_env : option str
}.

Record matrix_section : Type := {
  mx_include : option (list row)
}.

Record config : Type := {
  cfg_script : str;
  cfg_rust : list str;
  cfg_env : option (list str);
  cfg_matrix : option matrix_section
}.

(** [travis.get('matrix', {}).get('include', [])] *)
Definition matrix_includes_of (travis : config) : list row :=
  match cfg_matrix travis with
  | Some mx => match mx_include mx with Some rs => rs | None => [] end
  | None => []
  end.

(** [travis.get('env', [emptystring])] *)
Definition env_strings_of (travis : config) : list str :=
  match cfg_env travis with
  | Some es => es
  | None => [[]]
  end.

(** The row [{}] that [chain] puts before [matrix_includes]. *)
Definition empty_row : row := {| row_rust := None; row_env := None |}.

(** ** Decimal output of a sequence number (the [%d] of a format) *)

Fixpoint digits (u : Decimal.uint) : str :=
  match u with
  | Decimal.Nil => []
  | Decimal.D0 u' => 48%N :: digits u'
  | Decimal.D1 u' => 49%N :: digits u'
  | Decimal.D2 u' => 50%N :: digits u'
  | Decimal.D3 u' => 51%N :: digits u'
  | Decimal.D4 u' => 52%N :: digits u'
  | Decimal.D5 u' => 53%N :: digits u'
  | Decimal.D6 u' => 54%N :: digits u'
  | Decimal.D7 u' => 55%N :: digits u'
  | Decimal.D8 u' => 56%N :: digits u'
  | Decimal.D9 u' => 57%N :: digits u'
  end.

Definition fmt_d (n : nat) : str := digits (Nat.to_uint n).

(** ** Events

    The observable effects of the script, by what they say rather than
    by their text: a message stands for the line that [msg] prints (the
    colour codes around it are left out), a log line for the text
    written to the log file of a run. The lines that [msg_trace] writes
    to the error stream when tracing is on are not recorded. *)

(** A terminal message of [msg]: lines 46, 53, 112, 143, 76 and 78. *)
Inductive message : Type :=
| MsgUnknownArgument (arg : str)
| MsgTestsWillRun (rust_vers : list str)
| MsgRunning (rust_ver : str) (seq_id : nat)
| MsgOutcome (success : bool)
| MsgResults
| MsgResult (rust_ver : str) (seq_id : nat) (success : bool).

(** A line written to the log file of a run: lines 119, 121, 130-131
    and 140. *)
Inductive log_line : Type :=
| LogHeader (rust_ver : str) (seq_id : nat)
| LogVariable (k v : str)
| LogCommand (cmd_str : str)
| LogCommandFailed.

Inductive event : Type :=
| EnsureLogDir                           (* lines 37-38 *)
| Say (m : message)                      (* msg *)
| PrintBlank                             (* line 74 *)
| LogOpen (path : str)                   (* line 111 *)
| LogWrite (l : log_line)
| LogFlush
| LogClose                               (* line 144 *)
| Sh (cmd : str) (env : dict) (ok : bool).   (* line 150, and whether it succeeded *)

Section TestMatrix.

(** The alphanumeric property of the Unicode database for the code
    points above U+007F; [\w] in a [str] pattern is every alphanumeric
    character and the underscore. *)
Variable uni_alnum : char -> bool.

Definition is_word (c : char) : bool :=
  is_name_char c || (N.leb 128%N c && uni_alnum c).

(** ** The two patterns of the script *)

Local Open Scope N_scope.

(** The pattern of [parse_env_vars] (line 102): a name, [=], then a
    double-quoted value without double quotes or a run of characters
    that are not white space. *)
Definition ENV_VAR_RE : regex :=
  Cat (Grp 1 (Plus is_name_char))
   (Cat (Chr 61)
      (Alt (Cat (Chr dquote) (Cat (Grp 2 (Plus is_not_dquote)) (Chr dquote)))
           (Grp 3 (Star is_nonspace)))).

(** The pattern of [run_script] (line 128): [$], then a name or a name
    in braces, then [\b]. *)
Definition SUBST_RE : regex :=
  Cat (Chr 36)
   (Cat (Alt (Grp 1 (Plus is_name_char))
             (Cat (Chr 123) (Cat (Grp 2 (Plus is_name_char)) (Chr 125))))
        (WordBoundary is_word)).

Local Close Scope N_scope.

(** [a or b] on values that are [None] or a string: [a] when it is a
    non-empty string, [b] otherwise. *)
Definition py_or (a b : option str) : option str :=
  match a with
  | Some (_ :: _) => a
  | _ => b
  end.

(** ** parse_env_vars (lines 100-106) *)

Definition env_entry (env_vars : dict) (m : groups) : dict :=
  match group 1 m, py_or (group 2 m) (group 3 m) with
  | Some k, Some v => dict_set k v env_vars
  | _, _ => env_vars
  end.

Definition parse_env_vars (s : str) : dict :=
  fold_left env_entry (finditer ENV_VAR_RE (strip s)) [].

(** ** Substitution (lines 115-117 and 128) *)

(** The callback [sub_env]: the value of the referenced name in the
    effective environment; a missing name is a [KeyError]. *)
Definition sub_env (cmd_env : dict) (m : groups) : result str :=
  let name := py_or (group 1 m) (group 2 m) in
  match name with
  | Some n =>
      match dict_get n cmd_env with
      | Some v => Ok v
      | None => Raise (KeyError name)
      end
  | None => Raise (KeyError None)
  end.

(** [re.sub] with a callback: matches are replaced from left to right,
    the text between them is kept; the first exception of the callback
    ends the call. *)
Fixpoint sub_pieces (repl : groups -> result str) (ps : list piece)
  : result str :=
  match ps with
  | [] => Ok []
  | Skipped c :: ps' =>
      match sub_pieces repl ps' with
      | Ok t => Ok (c :: t)
      | Raise e => Raise e
      end
  | Match g :: ps' =>
      match repl g with
      | Ok v =>
          match sub_pieces repl ps' with
          | Ok t => Ok (v ++ t)
          | Raise e => Raise e
          end
      | Raise e => Raise e
      end
  end.

Definition re_sub (r : regex) (repl : groups -> result str) (s : str)
  : result str :=
  sub_pieces repl (scan_all r s).

(** The first statement of the loop body of [run_script]. *)
Definition substitute (cmd_env : dict) (cmd : str) : result str :=
  re_sub SUBST_RE (sub_env cmd_env) cmd.

(** ** translate_script (lines 160-162) *)

(** [s.split(amp amp)]; [cur] is the part read so far, reversed. *)
Fixpoint split_and (s cur : str) : list str :=
  match s with
  | a :: t =>
      match t with
      | b :: s' =>
          if N.eqb a 38 && N.eqb b 38 then rev cur :: split_and s' []
          else split_and t (a :: cur)
      | [] => [rev (a :: cur)]
      end
  | [] => [rev cur]
  end.

Definition translate_script (script : str) : list str :=
  List.map strip (split_and script []).

(** ** Effects *)

(** The platform: the state of everything outside the program, the
    outcome of a shell command in it, the environment the program was
    started with, and [os.path.join]. *)
Variable World : Type.
Variable run_shell : str -> dict -> World -> bool * World.
Variable os_environ : dict.
Variable os_path_join : str -> str -> str.

(** A computation: from the world to a value or an uncaught exception,
    the world afterwards, and the events in the order they happened. *)
Definition M (A : Type) : Type := World -> result A * World * list event.

Definition ret {A : Type} (a : A) : M A := fun w => (Ok a, w, []).

Definition bind {A B : Type} (m : M A) (f : A -> M B) : M B :=
  fun w =>
    match m w with
    | (Ok a, w1, t1) =>
        match f a w1 with
        | (r, w2, t2) => (r, w2, t1 ++ t2)
        end
    | (Raise e, w1, t1) => (Raise e, w1, t1)
    end.

Definition emit (e : event) : M unit := fun w => (Ok tt, w, [e]).

(** [msg] (lines 80-88) *)
Definition msg (m : message) : M unit := emit (Say m).

Definition raise {A : Type} (e : exn) : M A := fun w => (Raise e, w, []).

Definition lift {A : Type} (r : result A) : M A := fun w => (r, w, []).

Notation "x <- c1 ;; c2" := (bind c1 (fun x => c2))
  (at level 61, c1 at next level, right associativity).
Notation "c1 ;; c2" := (bind c1 (fun _ => c2))
  (at level 61, right associativity).

(** [sh(cmd, checked=False, stdout=log_file, stderr=log_file, env=env)]
    (lines 147-158): [True] when the child exits with status zero,
    [False] when it does not or cannot be started. *)
Definition sh (cmd : str) (env : dict) : M bool :=
  fun w => let (ok, w') := run_shell cmd env w in (Ok ok, w', [Sh cmd env ok]).

(** ** run_script (lines 108-145) *)

(** [LOG_DIR] (line 19) *)
Definition LOG_DIR : str := os_path_join (lit "local") (lit "tests").

(** The command line of a step (line 134). *)
Definition step_command (rust_ver cmd1 : str) : str :=
  lit "multirust run " ++ rust_ver ++ lit " " ++ cmd1.

(** The loop of lines 120-121. *)
Fixpoint log_variables (items : dict) : M unit :=
  match items with
  | [] => ret tt
  | (k, v) :: items' => emit (LogWrite (LogVariable k v)) ;; log_variables items'
  end.

(** The loop of lines 127-142; the value is [success] after the loop. *)
Fixpoint run_steps (rust_ver : str) (cmd_env : dict) (script : list str)
  : M bool :=
  match script with
  | [] => ret true
  | cmd :: script' =>
      cmd1 <- lift (substitute cmd_env cmd) ;;
      emit (LogWrite (LogCommand
        (lit "> multirust run " ++ rust_ver ++ lit " " ++ cmd1))) ;;
      emit LogFlush ;;
      success <- sh (step_command rust_ver cmd1) cmd_env ;;
      if success then run_steps rust_ver cmd_env script'
      else
        emit (LogWrite LogCommandFailed) ;;
        emit LogFlush ;;
        ret false
  end.

(** The effective environment of a run (lines 123-125). *)
Definition effective_env (rust_ver : str) (seq_id : nat) (env : dict) : dict :=
  let target_dir :=
    os_path_join (lit "target") (rust_ver ++ lit "-" ++ fmt_d seq_id) in
  dict_update (dict_set (lit "CARGO_TARGET_DIR") target_dir os_environ) env.

Definition run_script (script : list str) (rust_ver : str) (seq_id : nat)
    (env : dict) : M bool :=
  let log_path :=
    os_path_join LOG_DIR (rust_ver ++ lit "-" ++ fmt_d seq_id ++ lit ".log") in
  emit (LogOpen log_path) ;;
  msg (MsgRunning rust_ver seq_id) ;;
  emit (LogWrite (LogHeader rust_ver seq_id)) ;;
  log_variables env ;;
  success <- run_steps rust_ver (effective_env rust_ver seq_id env) script ;;
  msg (MsgOutcome success) ;;
  emit LogClose ;;
  ret success.

(** ** main (lines 24-78) *)

Definition run_result : Type := str * nat * bool.

(** [arg.startswith('-')] *)
Definition startswith_minus (arg : str) : bool :=
  match arg with
  | c :: _ => N.eqb c 45
  | [] => false
  end.

(** The loop over the arguments (lines 40-47); the value is
    [(include_vers, exclude_vers)]. [tl arg] is [arg[1:]]. *)
Fixpoint args_loop (vers : list str) (args : list str)
    (include_vers exclude_vers : list str) : M (list str * list str) :=
  match args with
  | [] => ret (include_vers, exclude_vers)
  | arg :: args' =>
      if mem arg vers && negb (mem arg include_vers) then
        args_loop vers args' (include_vers ++ [arg]) exclude_vers
      else if startswith_minus arg && mem (tl arg) vers then
        args_loop vers args' include_vers (tl arg :: exclude_vers)
      else
        msg (MsgUnknownArgument arg) ;;
        raise (SystemExit 1)
  end.

(** Lines 49-52. *)
Definition resolve_vers (default_rust_vers include_vers exclude_vers : list str)
  : list str :=
  let include_vers :=
    match include_vers with
    | [] => default_rust_vers
    | _ :: _ => include_vers
    end in
  filter (fun v => negb (mem v exclude_vers)) include_vers.

(** The test of line 61: the row names a version other than this one. *)
Definition row_skipped (r : row) (rust_ver : str) : bool :=
  match row_rust r with
  | None => false
  | Some v => negb (str_eqb v rust_ver)
  end.

(** [row.get('env', emptystring)] *)
Definition row_env_string (r : row) : str :=
  match row_env r with
  | Some e => e
  | None => []
  end.

(** Lines 66-68. *)
Definition merged_env (env_vars row_env_vars : dict) : dict :=
  dict_update (dict_update [] env_vars) row_env_vars.

Section Loops.

(** The callee of line 70. *)
Variable run : list str -> str -> nat -> dict -> M bool.

(** The loop over the rows (lines 60-72); the state is [seq_id] and
    [results]. *)
Fixpoint rows_loop (script : list str) (rust_ver : str) (env_vars : dict)
    (rows : list row) (seq_id : nat) (results : list run_result)
  : M (nat * list run_result) :=
  match rows with
  | [] => ret (seq_id, results)
  | r :: rows' =>
      if row_skipped r rust_ver then
        rows_loop script rust_ver env_vars rows' seq_id results
      else
        let row_env_vars := parse_env_vars (row_env_string r) in
        let cmd_env := merged_env env_vars row_env_vars in
        success <- run script rust_ver seq_id cmd_env ;;
        rows_loop script rust_ver env_vars rows' (S seq_id)
          (results ++ [(rust_ver, seq_id, success)])
  end.

(** The loop over the environment strings (lines 58-72). *)
Fixpoint envs_loop (script : list str) (rust_ver : str) (env_strs : list str)
    (matrix_includes : list row) (seq_id : nat) (results : list run_result)
  : M (nat * list run_result) :=
  match env_strs with
  | [] => ret (seq_id, results)
  | env_var_str :: env_strs' =>
      let env_vars := parse_env_vars env_var_str in
      st <- rows_loop script rust_ver env_vars (empty_row :: matrix_includes)
              seq_id results ;;
      envs_loop script rust_ver env_strs' matrix_includes (fst st) (snd st)
  end.

(** The loop over the versions (lines 56-72). *)
Fixpoint vers_loop (script : list str) (rust_vers : list str)
    (env_strs : list str) (matrix_includes : list row)
    (results : list run_result) : M (list run_result) :=
  match rust_vers with
  | [] => ret results
  | rust_ver :: rust_vers' =>
      st <- envs_loop script rust_ver env_strs matrix_includes 0 results ;;
      vers_loop script rust_vers' env_strs matrix_includes (snd st)
  end.

End Loops.

(** The loop of lines 77-78. *)
Fixpoint report (results : list run_result) : M unit :=
  match results with
  | [] => ret tt
  | (rust_ver, seq_id, success) :: results' =>
      msg (MsgResult rust_ver seq_id success) ;; report results'
  end.

(** [main], given the loaded configuration and [sys.argv[1:]]; the
    value is the list [results]. *)
Definition main (travis : config) (args : list str) : M (list run_result) :=
  let script := translate_script (cfg_script travis) in
  let default_rust_vers := cfg_rust travis in
  let matrix_includes := matrix_includes_of travis in
  emit EnsureLogDir ;;
  sel <- args_loop default_rust_vers args [] [] ;;
  let rust_vers := resolve_vers default_rust_vers (fst sel) (snd sel) in
  msg (MsgTestsWillRun rust_vers) ;;
  results <- vers_loop run_script script rust_vers (env_strings_of travis)
               matrix_includes [] ;;
  emit PrintBlank ;;
  msg MsgResults ;;
  report results ;;
  ret results.

(** The exit status of the process: zero when [main] returns, the code
    of [sys.exit], and one for any other uncaught exception. *)
Definition exit_status {A : Type} (r : result A) : nat :=
  match r with
  | Ok _ => 0
  | Raise (SystemExit code) => code
  | Raise (KeyError _) => 1
  end.

(** ** What is observed of a computation *)

Definition outcome {A : Type} (o : result A * World * list event) : result A :=
  fst (fst o).

Definition trace {A : Type} (o : result A * World * list event) : list event :=
  snd o.

(** The runs that were started, from the messages of line 112. *)
Fixpoint run_starts (tr : list event) : list (str * nat) :=
  match tr with
  | [] => []
  | Say (MsgRunning rust_ver seq_id) :: tr' => (rust_ver, seq_id) :: run_starts tr'
  | _ :: tr' => run_starts tr'
  end.

(** The child processes, in the order they were run. *)
Fixpoint sh_events (tr : list event) : list (str * dict * bool) :=
  match tr with
  | [] => []
  | Sh cmd env ok :: tr' => (cmd, env, ok) :: sh_events tr'
  | _ :: tr' => sh_events tr'
  end.

Definition sh_results (tr : list event) : list bool :=
  List.map snd (sh_events tr).

(** What was done to log files. *)
Fixpoint log_events (tr : list event) : list event :=
  match tr with
  | [] => []
  | LogOpen path :: tr' => LogOpen path :: log_events tr'
  | LogWrite l :: tr' => LogWrite l :: log_events tr'
  | LogFlush :: tr' => LogFlush :: log_events tr'
  | LogClose :: tr' => LogClose :: log_events tr'
  | _ :: tr' => log_events tr'
  end.

(** ** The Matrix Expander of the specification (section 4.3)

    Follows the words of the specification: the row list is one
    synthetic row without pinned version and with an empty environment
    string, then the configured rows; a row pinned to another version
    is left out; the run specifications of a version are numbered from
    zero in the order they are generated. *)

Record run_spec : Type := {
  rs_version : str;
  rs_index : nat;
  rs_env : dict
}.

Definition synthetic_row : row := {| row_rust := None; row_env := Some [] |}.

Definition row_applies (version : str) (r : row) : bool :=
  match row_rust r with
  | None => true
  | Some pinned => str_eqb pinned version
  end.

(** The environments of the rows that apply, for one environment
    string. *)
Definition row_envs (rust_ver : str) (env_vars : dict) (rows : list row)
  : list dict :=
  List.map (fun r => merged_env env_vars (parse_env_vars (row_env_string r)))
    (filter (row_applies rust_ver) rows).

Definition spec_envs (version : str) (envAlternatives : list str)
    (overrideRows : list row) : list dict :=
  flat_map
    (fun alt =>
       List.map
         (fun r => merged_env (parse_env_vars alt)
                              (parse_env_vars (row_env_string r)))
         (filter (row_applies version) (synthetic_row :: overrideRows)))
    envAlternatives.

Fixpoint numbered (version : str) (i : nat) (envs : list dict) : list run_spec :=
  match envs with
  | [] => []
  | e :: envs' =>
      {| rs_version := version; rs_index := i; rs_env := e |}
      :: numbered version (S i) envs'
  end.

Definition spec_expand (version : str) (envAlternatives : list str)
    (overrideRows : list row) : list run_spec :=
  numbered version 0 (spec_envs version envAlternatives overrideRows).

(** The run specifications executed one after the other, each adding
    its result to the list. *)
Fixpoint exec_specs (run : list str -> str -> nat -> dict -> M bool)
    (script : list str) (specs : list run_spec) (results : list run_result)
  : M (list run_result) :=
  match specs with
  | [] => ret results
  | sp :: specs' =>
      success <- run script (rs_version sp) (rs_index sp) (rs_env sp) ;;
      exec_specs run script specs'
        (results ++ [(rs_version sp, rs_index sp, success)])
  end.

(** The names assigned by an environment string, in order (group 1 of
    every match of line 102). *)
Definition env_names (s : str) : list (option str) :=
  List.map (group 1) (finditer ENV_VAR_RE (strip s)).

(** A token is recognized by the loop of lines 40-47 when it is a
    default version or a default version after a minus sign. *)
Definition recognized (vers : list str) (arg : str) : bool :=
  mem arg vers || (startswith_minus arg && mem (tl arg) vers).

(** The world after a computation. *)
Definition world {A : Type} (o : result A * World * list event) : World :=
  snd (fst o).

Definition spec_key (sp : run_spec) : str * nat := (rs_version sp, rs_index sp).

Definition result_key (r : run_result) : str * nat := fst r.

(** The runs of a version block: the version with the numbers from
    zero to [k-1]. *)
Definition block (vk : str * nat) : list (str * nat) :=
  List.map (pair (fst vk)) (seq 0 (snd vk)).

(** The lines of the loop of lines 120-121. *)
Definition variable_lines (items : dict) : list event :=
  List.map (fun kv => LogWrite (LogVariable (fst kv) (snd kv))) items.

(** What is written before the first step. *)
Definition run_header (rust_ver : str) (seq_id : nat) (env : dict) : list event :=
  LogOpen (os_path_join LOG_DIR
             (rust_ver ++ lit "-" ++ fmt_d seq_id ++ lit ".log"))
  :: Say (MsgRunning rust_ver seq_id)
  :: LogWrite (LogHeader rust_ver seq_id)
  :: variable_lines env.

(** The lines of the loop of lines 77-78. *)
Definition result_lines (results : list run_result) : list event :=
  List.map (fun r => Say (MsgResult (fst (fst r)) (snd (fst r)) (snd r))) results.

(** How the loop over the steps ends after [j] successful steps: all
    steps are done, or the next step fails, or its substitution raises
    a [KeyError]. *)
Definition steps_end (cmd_env : dict) (script : list str) (j : nat)
    (r : result bool) (oks : list bool) : Prop :=
  (r = Ok true /\ j = length script /\ oks = repeat true j)
  \/ (r = Ok false /\ j < length script /\ oks = repeat true j ++ [false])
  \/ (exists cmd key,
        r = Raise (KeyError key)
        /\ nth_error script j = Some cmd
        /\ substitute cmd_env cmd = Raise (KeyError key)
        /\ oks = repeat true j).

(** The child processes of the steps that ran are the first steps of
    the script, substituted, in order. *)
Definition ran_step (rust_ver : str) (cmd_env : dict) (cmd : str)
    (ev : str * dict * bool) : Prop :=
  exists cmd1,
    substitute cmd_env cmd = Ok cmd1
    /\ fst (fst ev) = step_command rust_ver cmd1
    /\ snd (fst ev) = cmd_env.

(** ** Tokens of an environment string

    What the scan of [parse_env_vars] finds, written without the
    matcher; [match_here_env_some] and [match_here_env_none] below show
    that the pattern of line 102 matches exactly so. *)

Fixpoint take_while (cls : char -> bool) (s : str) : str :=
  match s with
  | c :: s' => if cls c then c :: take_while cls s' else []
  | [] => []
  end.

Fixpoint drop_while (cls : char -> bool) (s : str) : str :=
  match s with
  | c :: s' => if cls c then drop_while cls s' else s
  | [] => []
  end.

(** The character before the position reached after reading [t]. *)
Fixpoint last_char (prev : option char) (t : str) : option char :=
  match t with
  | [] => prev
  | c :: t' => last_char (Some c) t'
  end.

(** A double-quoted value at the start of [s]: the text between the
    quotes, not empty and without a double quote, and what follows. *)
Definition quoted_value (s : str) : option (str * str) :=
  match s with
  | c :: s1 =>
      if N.eqb c dquote then
        match take_while is_not_dquote s1, drop_while is_not_dquote s1 with
        | _ :: _, c' :: s2 =>
            if N.eqb c' dquote then Some (take_while is_not_dquote s1, s2)
            else None
        | _, _ => None
        end
      else None
  | [] => None
  end.

(** A token [NAME=value] at the start of [s]: name, value, rest. *)
Definition env_match (s : str) : option (str * str * str) :=
  match take_while is_name_char s, drop_while is_name_char s with
  | _ :: _, c :: s1 =>
      if N.eqb c 61 then
        match quoted_value s1 with
        | Some (v, s2) => Some (take_while is_name_char s, v, s2)
        | None =>
            Some (take_while is_name_char s,
                  take_while is_nonspace s1, drop_while is_nonspace s1)
        end
      else None
  | _, _ => None
  end.

Fixpoint env_tokens (fuel : nat) (s : str) : list (str * str) :=
  match fuel with
  | O => []
  | S fuel' =>
      match env_match s with
      | Some (k, v, rest) => (k, v) :: env_tokens fuel' rest
      | None =>
          match s with
          | _ :: s' => env_tokens fuel' s'
          | [] => []
          end
      end
  end.

Definition tokens (s : str) : list (str * str) := env_tokens (S (length s)) s.

(** ** Serialization of an environment map

    Follows the words of the specification (section 8, property 1):
    [KEY=value] pairs separated by white space, a value that contains
    white space between double quotes. The pairs are written in the
    order of the dictionary. *)

Definition has_space (v : str) : bool := existsb is_space v.

Definition serialize_value (v : str) : str :=
  if has_space v then dquote :: v ++ [dquote] else v.

Definition serialize_pair (kv : str * str) : str :=
  fst kv ++ 61%N :: serialize_value (snd kv).

Fixpoint serialize (d : dict) : str :=
  match d with
  | [] => []
  | kv :: d' =>
      match d' with
      | [] => serialize_pair kv
      | _ :: _ => serialize_pair kv ++ 32%N :: serialize d'
      end
  end.

(** The grammar of an environment string without malformed tokens
    (specification, section 4.1): tokens [NAME=value] separated by
    white space; a value is double-quoted without a double quote
    inside, or a run of characters that are not white space. *)

Definition all_spaces (s : str) : bool := forallb is_space s.
Definition no_space (s : str) : bool := forallb is_nonspace s.
Definition no_dquote (s : str) : bool := forallb is_not_dquote s.
Definition is_name (s : str) : bool :=
  match s with [] => false | _ :: _ => forallb is_name_char s end.

Inductive env_token : str -> Prop :=
| token_plain (name v : str) :
    is_name name = true -> no_space v = true ->
    env_token (name ++ 61%N :: v)
| token_quoted (name v : str) :
    is_name name = true -> no_dquote v = true ->
    env_token (name ++ 61%N :: dquote :: v ++ [dquote]).

Inductive env_tail : str -> Prop :=
| tail_end (ws : str) : all_spaces ws = true -> env_tail ws
| tail_token (sep t rest : str) :
    sep <> [] -> all_spaces sep = true -> env_token t -> env_tail rest ->
    env_tail (sep ++ t ++ rest).

Inductive env_string : str -> Prop :=
| string_blank (ws : str) : all_spaces ws = true -> env_string ws
| string_tokens (ws t rest : str) :
    all_spaces ws = true -> env_token t -> env_tail rest ->
    env_string (ws ++ t ++ rest).

(** What a dictionary entry must satisfy to be read back from its
    serialization: the key is a name, and a value with white space,
    which is written between double quotes, has no double quote. *)
Definition entry_ok (kv : str * str) : bool :=
  is_name (fst kv) && (negb (has_space (snd kv)) || no_dquote (snd kv)).

(** Nothing in the serialization of [d] is a double quote. *)
Fixpoint plain (d : dict) : bool :=
  match d with
  | [] => true
  | (k, v) :: d' => no_dquote k && no_dquote v && no_space v && plain d'
  end.

(** A value that starts with a double quote and is written without
    quotes is read back as it is when a second double quote follows at
    once or no double quote follows at all. *)
Definition value_safe (v : str) (d' : dict) : bool :=
  match v with
  | c :: w =>
      if N.eqb c dquote && no_space v then
        match w with
        | c' :: _ => N.eqb c' dquote || (no_dquote w && plain d')
        | [] => plain d'
        end
      else true
  | [] => true
  end.

Fixpoint quote_safe (d : dict) : bool :=
  match d with
  | [] => true
  | (_, v) :: d' => value_safe v d' && quote_safe d'
  end.

(** ** Auxiliary notions of the round trip *)

Definition starts_with_dquote (v : str) : bool :=
  match v with
  | c :: _ => N.eqb c dquote
  | [] => false
  end.

(** No value of the dictionary starts with a double quote. *)
Definition no_leading_dquote (d : dict) : bool :=
  forallb (fun kv => negb (starts_with_dquote (snd kv))) d.

(** What follows a pair in a serialization. *)
Definition tail_text (d : dict) : str :=
  match d with
  | [] => []
  | _ :: _ => 32%N :: serialize d
  end.

Definition head_nonspace (s : str) : bool :=
  match s with
  | c :: _ => is_nonspace c
  | [] => true
  end.

(** ** Further notions for the properties of the code *)

(** The text has no dollar sign. *)
Definition no_dollar (s : str) : bool :=
  forallb (fun c => negb (N.eqb c 36)) s.

(** What [sub_env] returns for a reference to [name]. *)
Definition lookup_or_raise (cmd_env : dict) (name : str) (before after : str)
  : result str :=
  match dict_get name cmd_env with
  | Some v => Ok (before ++ v ++ after)
  | None => Raise (KeyError (Some name))
  end.

(** The assignments of lines 103-105, one for every match of line
    102, in order: the key [k] and the value [v]. *)
Definition env_assignments (s : str) : list (option str * option str) :=
  List.map (fun m => (group 1 m, py_or (group 2 m) (group 3 m)))
    (finditer ENV_VAR_RE (strip s)).

(** The value of the last assignment to [k]. *)
Definition last_value (k : str) (asg : list (option str * option str))
  : option str :=
  match find (fun a => match fst a with
                       | Some k' => str_eqb k k'
                       | None => false
                       end) (rev asg) with
  | Some (_, v) => v
  | None => None
  end.

(** The text has no equals sign. *)
Definition no_equals (s : str) : bool :=
  forallb (fun c => negb (N.eqb c 61)) s.

(** The event opens or closes a log file. *)
Definition opens_or_closes (e : event) : bool :=
  match e with
  | LogOpen _ | LogClose => true
  | _ => false
  end.


(** [amp amp.join(parts)], for the two-character separator of line
    161. *)
Fixpoint join_and (parts : list str) : str :=
  match parts with
  | [] => []
  | p :: ps =>
      match ps with
      | [] => p
      | _ :: _ => p ++ 38%N :: 38%N :: join_and ps
      end
  end.

(** The text contains the separator of line 161. *)
Fixpoint has_and_and (s : str) : bool :=
  match s with
  | a :: t =>
      match t with
      | b :: _ => (N.eqb a 38 && N.eqb b 38) || has_and_and t
      | [] => false
      end
  | [] => false
  end.

(** The verdicts printed at the end of the runs (line 143), in order. *)
Fixpoint verdicts (tr : list event) : list bool :=
  match tr with
  | [] => []
  | Say (MsgOutcome success) :: tr' => success :: verdicts tr'
  | _ :: tr' => verdicts tr'
  end.

(** What a child process leaves in the trace of a run: its command
    line in the log (lines 129-132), the child itself, and the line of
    lines 140-141 when it failed. *)
Definition step_events (ev : str * dict * bool) : list event :=
  LogWrite (LogCommand (lit "> " ++ fst (fst ev)))
  :: LogFlush
  :: Sh (fst (fst ev)) (snd (fst ev)) (snd ev)
  :: (if snd ev then [] else [LogWrite LogCommandFailed; LogFlush]).

(** ** Sample inputs and a sample platform *)

(** ASCII text only: no alphanumeric character above U+007F. *)
Definition sample_alnum : char -> bool := fun _ => false.

(** Every command fails; the world has no state. *)
Definition sample_shell (cmd : str) (env : dict) (w : unit) : bool * unit :=
  (false, w).

Definition sample_join (a b : str) : str := a ++ 47%N :: b.

Definition sample_config : config :=
  {| cfg_script := lit "cargo build && cargo test";
     cfg_rust := [lit "a"; lit "b"; lit "c"];
     cfg_env := None;
     cfg_matrix := None |}.

(** [A=1 B=(x y)], with double quotes for the brackets. *)
Definition quoted_sample : str :=
  lit "A=1 B=" ++ dquote :: lit "x y" ++ [dquote].

(** [A=0 C=x(y A=(z], with a double quote for every bracket. *)
Definition reassigned_sample : str :=
  lit "A=0 C=x" ++ dquote :: lit "y A=" ++ dquote :: lit "z".

(** * Properties *)

Unset Implicit Arguments.
Set Default Proof Using "Type".

(** The platform is put aside before a tactic that looks at every
    hypothesis. *)
Ltac forget_platform :=
  try clear run_shell; try clear os_path_join; try clear os_environ;
  try clear World; try clear uni_alnum.

Ltac tauto' := forget_platform; tauto.

(** ** Strings and character classes *)

Lemma str_eqb_refl (a : str) : str_eqb a a = true.
Proof.
  induction a as [|x a IH]; simpl; [reflexivity|].
  now rewrite N.eqb_refl, IH.
Qed.

Lemma str_eqb_eq (a b : str) : str_eqb a b = true <-> a = b.
Proof.
  split.
  - revert b; induction a as [|x a IH]; intros [|y b] H; simpl in H;
      try discriminate; [reflexivity|].
    apply andb_true_iff in H as [Hx Hab].
    apply N.eqb_eq in Hx. now rewrite Hx, (IH b Hab).
  - intros ->. apply str_eqb_refl.
Qed.

Lemma str_eqb_neq (a b : str) : str_eqb a b = false <-> a <> b.
Proof.
  split.
  - intros H E. apply str_eqb_eq in E. congruence.
  - intros H. destruct (str_eqb a b) eqn:E; [|reflexivity].
    apply str_eqb_eq in E. contradiction.
Qed.

Lemma name_char_bounds (c : char) : is_name_char c = true -> (48 <= c <= 122)%N.
Proof.
  unfold is_name_char, in_range. intros H.
  repeat (apply orb_true_iff in H; destruct H as [H|H]);
    try (apply andb_true_iff in H; destruct H as [H1 H2];
         apply N.leb_le in H1; apply N.leb_le in H2; lia).
  apply N.eqb_eq in H. lia.
Qed.

Ltac settle_cmp :=
  repeat match goal with
         | |- context [N.leb ?a ?b] =>
             first [ replace (N.leb a b) with true
                       by (symmetry; apply N.leb_le; lia)
                   | replace (N.leb a b) with false
                       by (symmetry; apply N.leb_gt; lia) ]
         | |- context [N.eqb ?a ?b] =>
             first [ replace (N.eqb a b) with false
                       by (symmetry; apply N.eqb_neq; lia)
                   | replace (N.eqb a b) with true
                       by (symmetry; apply N.eqb_eq; lia) ]
         end.

Lemma name_char_not_space (c : char) : is_name_char c = true -> is_space c = false.
Proof.
  intros H. apply name_char_bounds in H.
  unfold is_space, in_range. settle_cmp. reflexivity.
Qed.

Lemma name_char_not_dquote (c : char) : is_name_char c = true -> is_not_dquote c = true.
Proof.
  intros H. apply name_char_bounds in H.
  unfold is_not_dquote, dquote. settle_cmp. reflexivity.
Qed.

Lemma name_char_not_equals (c : char) : is_name_char c = true -> N.eqb c 61 = false.
Proof.
  intros H. apply N.eqb_neq. intros ->. discriminate H.
Qed.

Lemma take_drop_while (cls : char -> bool) (s : str) :
  take_while cls s ++ drop_while cls s = s.
Proof.
  induction s as [|c s IH]; simpl; [reflexivity|].
  destruct (cls c); simpl; [now rewrite IH|reflexivity].
Qed.

Lemma drop_while_length (cls : char -> bool) (s : str) :
  length (drop_while cls s) <= length s.
Proof.
  induction s as [|c s IH]; simpl; [lia|].
  destruct (cls c); simpl; lia.
Qed.

Lemma firstn_take_while (cls : char -> bool) (s : str) :
  firstn (length s - length (drop_while cls s)) s = take_while cls s.
Proof.
  rewrite <- (take_drop_while cls s) at 1 3.
  rewrite length_app, Nat.add_sub.
  rewrite firstn_app, Nat.sub_diag, firstn_all. simpl. apply app_nil_r.
Qed.

Lemma take_while_all (cls : char -> bool) (s : str) :
  forallb cls (take_while cls s) = true.
Proof.
  induction s as [|c s IH]; simpl; [reflexivity|].
  destruct (cls c) eqn:E; simpl; [now rewrite E|reflexivity].
Qed.

Lemma drop_while_head (cls : char -> bool) (s : str) (c : char) (t : str) :
  drop_while cls s = c :: t -> cls c = false.
Proof.
  induction s as [|x s IH]; simpl; [discriminate|].
  destruct (cls x) eqn:E; [exact IH|].
  intros H. injection H as <- _. exact E.
Qed.

Lemma take_while_app_stop (cls : char -> bool) (a b : str) :
  forallb cls a = true ->
  match b with [] => True | c :: _ => cls c = false end ->
  take_while cls (a ++ b) = a /\ drop_while cls (a ++ b) = b.
Proof.
  intros Ha Hb. induction a as [|x a IH]; simpl in *.
  - destruct b as [|c b]; simpl; [split; reflexivity|].
    rewrite Hb. split; reflexivity.
  - apply andb_true_iff in Ha as [Hx Ha]. rewrite Hx.
    destruct (IH Ha) as [-> ->]. split; reflexivity.
Qed.

(** ** The matcher on the patterns of the script *)

(** Greedy repetition gives nothing back when the rest of the pattern
    cannot start with a character of the class. *)
Lemma rep_backtrack_free (cls : char -> bool) (k : option char -> str -> option matched) :
  (forall p c t, cls c = true -> k p (c :: t) = None) ->
  forall prev s,
    rep cls prev s k = k (last_char prev (take_while cls s)) (drop_while cls s).
Proof.
  intros Hk prev s; revert prev.
  induction s as [|c s IH]; intros prev; simpl; [reflexivity|].
  destruct (cls c) eqn:E; simpl; [|reflexivity].
  rewrite IH.
  destruct (k (last_char (Some c) (take_while cls s)) (drop_while cls s)) eqn:K;
    [reflexivity|].
  now apply Hk.
Qed.

(** Greedy repetition keeps the longest run when the rest of the
    pattern matches after it. *)
Lemma rep_longest (cls : char -> bool) (k : option char -> str -> option matched) :
  forall prev s m,
    k (last_char prev (take_while cls s)) (drop_while cls s) = Some m ->
    rep cls prev s k = Some m.
Proof.
  intros prev s; revert prev.
  induction s as [|c s IH]; intros prev m; simpl; [trivial|].
  destruct (cls c) eqn:E; simpl; [|trivial].
  intros H. now rewrite (IH _ _ H).
Qed.

(** The equations of the matcher. *)

Lemma rmatch_Chr c prev s g k :
  rmatch (Chr c) prev s g k
  = match s with
    | x :: s' => if N.eqb x c then k (Some x) s' g else None
    | [] => None
    end.
Proof. reflexivity. Qed.

Lemma rmatch_Plus cls prev s g k :
  rmatch (Plus cls) prev s g k
  = match s with
    | x :: s' => if cls x then rep cls (Some x) s' (fun p t => k p t g) else None
    | [] => None
    end.
Proof. reflexivity. Qed.

Lemma rmatch_Star cls prev s g k :
  rmatch (Star cls) prev s g k = rep cls prev s (fun p t => k p t g).
Proof. reflexivity. Qed.

Lemma rmatch_Cat r1 r2 prev s g k :
  rmatch (Cat r1 r2) prev s g k
  = rmatch r1 prev s g (fun p t g' => rmatch r2 p t g' k).
Proof. reflexivity. Qed.

Lemma rmatch_Alt r1 r2 prev s g k :
  rmatch (Alt r1 r2) prev s g k
  = match rmatch r1 prev s g k with
    | Some m => Some m
    | None => rmatch r2 prev s g k
    end.
Proof. reflexivity. Qed.

Lemma rmatch_Grp n r1 prev s g k :
  rmatch (Grp n r1) prev s g k
  = rmatch r1 prev s g
      (fun p t g' => k p t ((n, firstn (length s - length t) s) :: g')).
Proof. reflexivity. Qed.

Lemma rmatch_WordBoundary word prev s g k :
  rmatch (WordBoundary word) prev s g k
  = if xorb (word_before word prev) (word_here word s) then k prev s g
    else None.
Proof. reflexivity. Qed.

(** A group around [cls]+ whose continuation cannot start with a
    character of the class: the group is the longest run. *)
Lemma rmatch_Grp_Plus (n : nat) (cls : char -> bool) (prev : option char)
    (s : str) (g : groups) (k : option char -> str -> groups -> option matched) :
  (forall p c t g', cls c = true -> k p (c :: t) g' = None) ->
  rmatch (Grp n (Plus cls)) prev s g k
  = match take_while cls s with
    | [] => None
    | _ :: _ =>
        k (last_char prev (take_while cls s)) (drop_while cls s)
          ((n, take_while cls s) :: g)
    end.
Proof.
  intros Hk. rewrite rmatch_Grp, rmatch_Plus.
  pose proof (firstn_take_while cls s) as F.
  destruct s as [|x s']; [reflexivity|].
  cbn [take_while drop_while last_char] in *.
  destruct (cls x) eqn:Ex; [|reflexivity].
  rewrite rep_backtrack_free.
  - now rewrite F.
  - intros p c t Hc. now apply Hk.
Qed.

(** The first alternative of the value of line 102. *)
Lemma quoted_branch (p : option char) (s : str) (g : groups)
    (k : option char -> str -> groups -> option matched) :
  rmatch (Cat (Chr dquote) (Cat (Grp 2 (Plus is_not_dquote)) (Chr dquote)))
    p s g k
  = match quoted_value s with
    | Some (v, s2) => k (Some dquote) s2 ((2, v) :: g)
    | None => None
    end.
Proof.
  unfold quoted_value. rewrite rmatch_Cat, rmatch_Chr.
  destruct s as [|c s1]; [reflexivity|].
  destruct (N.eqb c dquote) eqn:Ec; [|reflexivity].
  rewrite rmatch_Cat, rmatch_Grp_Plus.
  - destruct (take_while is_not_dquote s1) as [|x q]; [reflexivity|].
    rewrite rmatch_Chr.
    destruct (drop_while is_not_dquote s1) as [|y s4]; [reflexivity|].
    destruct (N.eqb y dquote) eqn:Ey; [|reflexivity].
    apply N.eqb_eq in Ey. now subst y.
  - intros q c' t g' Hc'. rewrite rmatch_Chr. unfold is_not_dquote in Hc'.
    destruct (N.eqb c' dquote); [discriminate|reflexivity].
Qed.

(** The second alternative, at the end of the pattern. *)
Lemma plain_branch (p : option char) (s : str) (g : groups) :
  rmatch (Grp 3 (Star is_nonspace)) p s g (fun q t g' => Some (g', q, t))
  = Some ((3, take_while is_nonspace s) :: g,
          last_char p (take_while is_nonspace s),
          drop_while is_nonspace s).
Proof.
  rewrite rmatch_Grp, rmatch_Star. apply rep_longest.
  now rewrite firstn_take_while.
Qed.

(** The pattern of line 102 at one position. *)
Lemma match_here_env (prev : option char) (s : str) :
  match_here ENV_VAR_RE prev s
  = match take_while is_name_char s, drop_while is_name_char s with
    | _ :: _, c :: s1 =>
        if N.eqb c 61 then
          match quoted_value s1 with
          | Some (v, s2) =>
              Some ([(2, v); (1, take_while is_name_char s)], Some dquote, s2)
          | None =>
              Some ([(3, take_while is_nonspace s1);
                     (1, take_while is_name_char s)],
                    last_char (Some c) (take_while is_nonspace s1),
                    drop_while is_nonspace s1)
          end
        else None
    | _, _ => None
    end.
Proof.
  unfold match_here, ENV_VAR_RE. rewrite rmatch_Cat, rmatch_Grp_Plus.
  - destruct (take_while is_name_char s) as [|x name]; [reflexivity|].
    rewrite rmatch_Cat, rmatch_Chr.
    destruct (drop_while is_name_char s) as [|c s1]; [reflexivity|].
    destruct (N.eqb c 61) eqn:Ec; [|reflexivity].
    rewrite rmatch_Alt, quoted_branch.
    destruct (quoted_value s1) as [[v s2]|]; [reflexivity|].
    now rewrite plain_branch.
  - intros p c t g' Hc. rewrite rmatch_Cat, rmatch_Chr.
    now rewrite (name_char_not_equals c Hc).
Qed.

Lemma quoted_value_nonempty (s v s2 : str) :
  quoted_value s = Some (v, s2) -> v <> [] /\ no_dquote v = true.
Proof.
  unfold quoted_value. destruct s as [|c s1]; [discriminate|].
  destruct (N.eqb c dquote); [|discriminate].
  pose proof (take_while_all is_not_dquote s1) as A.
  destruct (take_while is_not_dquote s1) as [|x q]; [discriminate|].
  destruct (drop_while is_not_dquote s1) as [|y s4]; [discriminate|].
  destruct (N.eqb y dquote); [|discriminate].
  intros H. injection H as <- _. split; [discriminate|exact A].
Qed.

Lemma match_here_env_none (prev : option char) (s : str) :
  env_match s = None -> match_here ENV_VAR_RE prev s = None.
Proof.
  rewrite match_here_env. unfold env_match.
  destruct (take_while is_name_char s) as [|x name]; [reflexivity|].
  destruct (drop_while is_name_char s) as [|c s1]; [reflexivity|].
  destruct (N.eqb c 61); [|reflexivity].
  destruct (quoted_value s1) as [[v s2]|]; discriminate.
Qed.

Lemma match_here_env_some (prev : option char) (s k v rest : str) :
  env_match s = Some (k, v, rest) ->
  exists g p,
    match_here ENV_VAR_RE prev s = Some (g, p, rest)
    /\ group 1 g = Some k
    /\ py_or (group 2 g) (group 3 g) = Some v.
Proof.
  rewrite match_here_env. unfold env_match.
  destruct (take_while is_name_char s) as [|x name]; [discriminate|].
  destruct (drop_while is_name_char s) as [|c s1]; [discriminate|].
  destruct (N.eqb c 61); [|discriminate].
  destruct (quoted_value s1) as [[q s2]|] eqn:Q; intros H; injection H as <- <- <-.
  - eexists _, _. split; [reflexivity|]. split; [reflexivity|].
    apply quoted_value_nonempty in Q as [Q _].
    destruct q; [contradiction|reflexivity].
  - eexists _, _. repeat split; reflexivity.
Qed.

Lemma env_match_shorter (s k v rest : str) :
  env_match s = Some (k, v, rest) -> length rest < length s.
Proof.
  unfold env_match.
  destruct (take_while is_name_char s) as [|x name] eqn:T; [discriminate|].
  destruct (drop_while is_name_char s) as [|c s1] eqn:D; [discriminate|].
  destruct (N.eqb c 61); [|discriminate].
  pose proof (take_drop_while is_name_char s) as E. rewrite T, D in E.
  assert (L : length s1 + 2 <= length s).
  { rewrite <- E. rewrite length_app. simpl. lia. }
  destruct (quoted_value s1) as [[q s2]|] eqn:Q.
  - intros H. injection H as _ _ <-.
    unfold quoted_value in Q. destruct s1 as [|c1 s3]; [discriminate|].
    destruct (N.eqb c1 dquote); [|discriminate].
    destruct (take_while is_not_dquote s3); [discriminate|].
    destruct (drop_while is_not_dquote s3) as [|c2 s4] eqn:D2; [discriminate|].
    destruct (N.eqb c2 dquote); [|discriminate].
    injection Q as _ <-.
    pose proof (drop_while_length is_not_dquote s3) as L2. rewrite D2 in L2.
    simpl in *. lia.
  - intros H. injection H as _ _ <-.
    pose proof (drop_while_length is_nonspace s1). lia.
Qed.

(** ** The scan has fuel enough, and the patterns consume text *)

Lemma scan_fuel (r : regex) (f1 : nat) :
  forall f2 prev s,
    length s < f1 -> length s < f2 -> scan f1 r prev s = scan f2 r prev s.
Proof.
  induction f1 as [|f1 IH]; intros f2 prev s H1 H2; [lia|].
  destruct f2 as [|f2]; [lia|]. cbn [scan].
  destruct (match_here r prev s) as [[[g p] t]|].
  - destruct (Nat.ltb (length t) (length s)) eqn:E.
    + apply Nat.ltb_lt in E. f_equal. apply IH; lia.
    + destruct s as [|c s']; [reflexivity|]. cbn [length] in *.
      do 2 f_equal. apply IH; lia.
  - destruct s as [|c s']; [reflexivity|]. cbn [length] in *.
    f_equal. apply IH; lia.
Qed.

Lemma rep_rest (cls : char -> bool) (k : option char -> str -> option matched) :
  (forall p t m, k p t = Some m -> length (snd m) <= length t) ->
  forall s prev m, rep cls prev s k = Some m -> length (snd m) <= length s.
Proof.
  intros Hk s. induction s as [|c s IH]; intros prev m; cbn [rep].
  - apply Hk.
  - destruct (cls c); [|apply Hk].
    destruct (rep cls (Some c) s k) as [m'|] eqn:E; [|apply Hk].
    intros H. injection H as <-. apply IH in E. cbn [length]. lia.
Qed.

(** What is left after a match is no longer than the text. *)
Lemma rmatch_rest (r : regex) :
  forall prev s g (k : option char -> str -> groups -> option matched) m,
    (forall p t g' m', k p t g' = Some m' -> length (snd m') <= length t) ->
    rmatch r prev s g k = Some m -> length (snd m) <= length s.
Proof.
  induction r as [c|cls|cls|r1 IH1 r2 IH2|r1 IH1 r2 IH2|n r1 IH1|word];
    intros prev s g k m Hk; cbn [rmatch].
  - destruct s as [|x s']; [discriminate|].
    destruct (N.eqb x c); [|discriminate].
    intros H. apply Hk in H. cbn [length]. lia.
  - destruct s as [|x s']; [discriminate|].
    destruct (cls x); [|discriminate].
    intros H. apply rep_rest in H; [cbn [length]; lia|].
    intros p t m'. apply Hk.
  - apply rep_rest. intros p t m'. apply Hk.
  - apply IH1. intros p t g' m'. apply IH2. exact Hk.
  - destruct (rmatch r1 prev s g k) as [m1|] eqn:E.
    + intros H. injection H as <-. now apply IH1 in E.
    + now apply IH2.
  - apply IH1. intros p t g' m'. apply Hk.
  - destruct (xorb _ _); [apply Hk|discriminate].
Qed.

(** A match of the pattern of line 128 is never empty. *)
Lemma subst_match_consumes (prev : option char) (s : str) (m : matched) :
  match_here SUBST_RE prev s = Some m -> length (snd m) < length s.
Proof.
  unfold match_here, SUBST_RE. rewrite rmatch_Cat, rmatch_Chr.
  destruct s as [|x s']; [discriminate|].
  destruct (N.eqb x 36); [|discriminate].
  intros H. apply rmatch_rest in H; [cbn [length]; lia|].
  intros p t g' m' E. injection E as <-. cbn [snd]. lia.
Qed.

(** ** The scan of parse_env_vars *)

Lemma env_entry_token (d : dict) (g : groups) (k v : str) :
  group 1 g = Some k -> py_or (group 2 g) (group 3 g) = Some v ->
  env_entry d g = dict_set k v d.
Proof. unfold env_entry. now intros -> ->. Qed.

Lemma scan_env_tokens (fuel : nat) :
  forall prev s,
    exists gs,
      matches_of (scan fuel ENV_VAR_RE prev s) = gs
      /\ List.map (group 1) gs = List.map (fun kv => Some (fst kv)) (env_tokens fuel s)
      /\ forall d, fold_left env_entry gs d = dict_update d (env_tokens fuel s).
Proof.
  induction fuel as [|fuel IH]; intros prev s.
  - exists []. repeat split; reflexivity.
  - cbn [scan env_tokens].
    destruct (env_match s) as [[[k v] rest]|] eqn:E.
    + destruct (match_here_env_some prev _ _ _ _ E) as (g & p & Hm & Hk & Hv).
      rewrite Hm. apply env_match_shorter in E. apply Nat.ltb_lt in E.
      rewrite E. destruct (IH p rest) as (gs & Hgs & Hn & Hf).
      exists (g :: gs). cbn [matches_of]. rewrite Hgs.
      split; [reflexivity|]. split.
      * cbn [List.map fst]. now rewrite Hk, Hn.
      * intros d. cbn [fold_left]. rewrite (env_entry_token d g _ _ Hk Hv), Hf.
        reflexivity.
    + rewrite (match_here_env_none prev _ E).
      destruct s as [|c s'].
      * exists []. repeat split; reflexivity.
      * destruct (IH (Some c) s') as (gs & Hgs & Hn & Hf).
        exists gs. cbn [matches_of]. now repeat split.
Qed.

Lemma parse_env_vars_tokens (s : str) :
  parse_env_vars s = dict_update [] (tokens (strip s)).
Proof.
  unfold parse_env_vars, finditer, scan_all, tokens.
  destruct (scan_env_tokens (S (length (strip s))) None (strip s))
    as (gs & -> & _ & Hf).
  apply Hf.
Qed.

Lemma env_names_tokens (s : str) :
  env_names s = List.map (fun kv => Some (fst kv)) (tokens (strip s)).
Proof.
  unfold env_names, finditer, scan_all, tokens.
  destruct (scan_env_tokens (S (length (strip s))) None (strip s))
    as (gs & -> & Hn & _).
  exact Hn.
Qed.

Lemma env_tokens_fuel (f1 : nat) :
  forall f2 s, length s < f1 -> length s < f2 ->
               env_tokens f1 s = env_tokens f2 s.
Proof.
  induction f1 as [|f1 IH]; intros f2 s H1 H2; [lia|].
  destruct f2 as [|f2]; [lia|]. cbn [env_tokens].
  destruct (env_match s) as [[[k v] rest]|] eqn:E.
  - apply env_match_shorter in E. f_equal. apply IH; lia.
  - destruct s as [|c s']; [reflexivity|]. simpl in *. apply IH; lia.
Qed.

Lemma tokens_nil : tokens [] = [].
Proof. reflexivity. Qed.

Lemma tokens_match (s k v rest : str) :
  env_match s = Some (k, v, rest) -> tokens s = (k, v) :: tokens rest.
Proof.
  intros E. unfold tokens at 1. cbn [env_tokens]. rewrite E. f_equal.
  apply env_match_shorter in E. unfold tokens. apply env_tokens_fuel; lia.
Qed.

Lemma tokens_skip (c : char) (s : str) :
  env_match (c :: s) = None -> tokens (c :: s) = tokens s.
Proof.
  intros E. unfold tokens at 1. cbn [env_tokens]. rewrite E. reflexivity.
Qed.

(** Induction along the scan. *)
Lemma tokens_ind (P : str -> Prop) :
  P [] ->
  (forall s k v rest, env_match s = Some (k, v, rest) -> P rest -> P s) ->
  (forall c s, env_match (c :: s) = None -> P s -> P (c :: s)) ->
  forall s, P s.
Proof.
  intros Hnil Hmatch Hskip s.
  remember (length s) as n eqn:Hn. revert s Hn.
  induction n as [n IH] using lt_wf_ind. intros s ->.
  destruct (env_match s) as [[[k v] rest]|] eqn:E.
  - apply (Hmatch s k v rest E).
    apply (IH (length rest)); [now apply env_match_shorter in E|reflexivity].
  - destruct s as [|c s']; [exact Hnil|].
    apply (Hskip c s' E). apply (IH (length s')); [simpl; lia|reflexivity].
Qed.

(** ** What the tokens of a string look like *)

Lemma forallb_take_while (P cls : char -> bool) (s : str) :
  forallb P s = true -> forallb P (take_while cls s) = true.
Proof.
  induction s as [|c s IH]; simpl; [trivial|].
  intros H. apply andb_true_iff in H as [Hc Hs].
  destruct (cls c); simpl; [|reflexivity]. now rewrite Hc, IH.
Qed.

Lemma forallb_drop_while (P cls : char -> bool) (s : str) :
  forallb P s = true -> forallb P (drop_while cls s) = true.
Proof.
  induction s as [|c s IH]; simpl; [trivial|].
  intros H. destruct (cls c); [|exact H].
  apply andb_true_iff in H as [_ Hs]. now apply IH.
Qed.

Lemma drop_while_all (cls : char -> bool) (s : str) :
  forallb cls s = true -> drop_while cls s = [] /\ take_while cls s = s.
Proof.
  induction s as [|c s IH]; simpl; [now split|].
  intros H. apply andb_true_iff in H as [-> Hs].
  destruct (IH Hs) as [-> ->]. now split.
Qed.

Lemma drop_while_nil_all (cls : char -> bool) (s : str) :
  drop_while cls s = [] -> forallb cls s = true.
Proof.
  induction s as [|c s IH]; simpl; [trivial|].
  destruct (cls c); [exact IH|discriminate].
Qed.

Lemma no_space_has_space (v : str) : no_space v = negb (has_space v).
Proof.
  unfold no_space, has_space, is_nonspace.
  induction v as [|c v IH]; simpl; [reflexivity|].
  rewrite IH. now destruct (is_space c).
Qed.

Lemma is_name_take_while (s : str) (x : char) (name : str) :
  take_while is_name_char s = x :: name -> is_name (x :: name) = true.
Proof.
  intros E. unfold is_name. rewrite <- E. apply take_while_all.
Qed.

(** The cases of [env_match]. *)
Lemma env_match_cases (s k v rest : str) :
  env_match s = Some (k, v, rest) ->
  exists s1 : str,
    is_name k = true
    /\ s = k ++ 61%N :: s1
    /\ ((quoted_value s1 = Some (v, rest))
        \/ (quoted_value s1 = None
            /\ v = take_while is_nonspace s1
            /\ rest = drop_while is_nonspace s1)).
Proof.
  unfold env_match.
  pose proof (take_drop_while is_name_char s) as A.
  destruct (take_while is_name_char s) as [|x name] eqn:T; [discriminate|].
  destruct (drop_while is_name_char s) as [|c s1] eqn:D; [discriminate|].
  destruct (N.eqb c 61) eqn:Ec; [|discriminate].
  apply N.eqb_eq in Ec. subst c.
  destruct (quoted_value s1) as [[q s2]|] eqn:Q;
    intros H; injection H as <- <- <-; exists s1;
    (split; [exact (is_name_take_while _ _ _ T)|]); (split; [now symmetry|]).
  - now left.
  - right. now repeat split.
Qed.

Lemma tokens_entry_ok (s : str) : forallb entry_ok (tokens s) = true.
Proof.
  induction s as [|s k v rest E IH|c s E IH] using tokens_ind.
  - reflexivity.
  - rewrite (tokens_match _ _ _ _ E). cbn [forallb]. rewrite IH, andb_true_r.
    destruct (env_match_cases _ _ _ _ E) as (s1 & Hk & _ & [Q|(_ & -> & _)]).
    + apply quoted_value_nonempty in Q as [_ Q].
      unfold entry_ok. cbn [fst snd]. rewrite Hk, Q. apply orb_true_r.
    + unfold entry_ok. cbn [fst snd]. rewrite Hk, <- no_space_has_space.
      unfold no_space. now rewrite take_while_all.
  - now rewrite (tokens_skip _ _ E).
Qed.

Lemma no_dquote_app (a b : str) :
  no_dquote (a ++ b) = no_dquote a && no_dquote b.
Proof. apply forallb_app. Qed.

Lemma quoted_value_needs_quote (s : str) :
  no_dquote s = true -> quoted_value s = None.
Proof.
  unfold quoted_value, no_dquote. destruct s as [|c s1]; [reflexivity|].
  cbn [forallb]. unfold is_not_dquote at 1.
  destruct (N.eqb c dquote); [discriminate|reflexivity].
Qed.

(** A string without double quote gives tokens without double quote,
    none of them from the quoted form. *)
Lemma tokens_plain (s : str) : no_dquote s = true -> plain (tokens s) = true.
Proof.
  induction s as [|s k v rest E IH|c s E IH] using tokens_ind; intros H.
  - reflexivity.
  - rewrite (tokens_match _ _ _ _ E). cbn [plain].
    destruct (env_match_cases _ _ _ _ E) as (s1 & Hk & -> & HQ).
    rewrite no_dquote_app in H. apply andb_true_iff in H as [H1 H2].
    cbn [no_dquote forallb] in H2. apply andb_true_iff in H2 as [_ H2].
    fold (no_dquote s1) in H2.
    destruct HQ as [Q|(_ & -> & ->)].
    + rewrite (quoted_value_needs_quote _ H2) in Q. discriminate.
    + rewrite H1. unfold no_dquote at 1, no_space.
      rewrite (forallb_take_while _ _ _ H2), take_while_all.
      rewrite IH; [reflexivity|]. now apply forallb_drop_while.
  - rewrite (tokens_skip _ _ E). apply IH.
    cbn [no_dquote forallb] in H. now apply andb_true_iff in H as [_ H].
Qed.

Lemma nonspace_dquote : is_nonspace dquote = true.
Proof. reflexivity. Qed.

(** A value read in the plain form that starts with a double quote:
    a second one follows at once, or none follows in the string. *)
Lemma plain_value_safe (s1 : str) :
  quoted_value s1 = None ->
  value_safe (take_while is_nonspace s1) (tokens (drop_while is_nonspace s1)) = true.
Proof.
  unfold value_safe, quoted_value. intros Q.
  destruct s1 as [|c s3]; [reflexivity|]. cbn [take_while drop_while].
  destruct (is_nonspace c) eqn:Ec; [|reflexivity].
  destruct (N.eqb c dquote) eqn:Eq; [|reflexivity]. cbn [andb].
  assert (NS : no_space (c :: take_while is_nonspace s3) = true).
  { unfold no_space. cbn [forallb]. rewrite Ec. apply take_while_all. }
  rewrite NS.
  assert (S3 : (exists y t, s3 = y :: t /\ N.eqb y dquote = true)
               \/ no_dquote s3 = true).
  { pose proof (take_drop_while is_not_dquote s3) as A.
    pose proof (take_while_all is_not_dquote s3) as B.
    destruct (take_while is_not_dquote s3) as [|x q] eqn:T.
    - destruct s3 as [|y t]; [now right|]. left. exists y, t.
      split; [reflexivity|]. cbn [take_while] in T.
      unfold is_not_dquote in T. destruct (N.eqb y dquote); [reflexivity|discriminate].
    - destruct (drop_while is_not_dquote s3) as [|y s4] eqn:D.
      + right. rewrite app_nil_r in A. now rewrite <- A.
      + pose proof (drop_while_head _ _ _ _ D) as Hy. unfold is_not_dquote in Hy.
        destruct (N.eqb y dquote); [discriminate Q|discriminate Hy]. }
  destruct S3 as [(y & t & -> & Hy)|N3].
  - cbn [take_while]. apply N.eqb_eq in Hy. subst y.
    rewrite nonspace_dquote. reflexivity.
  - assert (P : plain (tokens (drop_while is_nonspace s3)) = true)
      by (apply tokens_plain; now apply forallb_drop_while).
    assert (W : no_dquote (take_while is_nonspace s3) = true)
      by (now apply forallb_take_while).
    rewrite P. destruct (take_while is_nonspace s3); [reflexivity|].
    rewrite W. apply orb_true_r.
Qed.

Lemma no_dquote_value_safe (v : str) (d : dict) :
  no_dquote v = true -> value_safe v d = true.
Proof.
  unfold value_safe, no_dquote. destruct v as [|c w]; [reflexivity|].
  cbn [forallb]. unfold is_not_dquote at 1.
  destruct (N.eqb c dquote); [discriminate|reflexivity].
Qed.

Lemma tokens_quote_safe (s : str) : quote_safe (tokens s) = true.
Proof.
  induction s as [|s k v rest E IH|c s E IH] using tokens_ind.
  - reflexivity.
  - rewrite (tokens_match _ _ _ _ E). cbn [quote_safe]. rewrite IH, andb_true_r.
    destruct (env_match_cases _ _ _ _ E) as (s1 & _ & _ & [Q|(Q & -> & ->)]).
    + apply quoted_value_nonempty in Q as [_ Q].
      now apply no_dquote_value_safe.
    + now apply plain_value_safe.
  - now rewrite (tokens_skip _ _ E).
Qed.

(** ** Reading a serialization back *)

Lemma serialize_cons (kv : str * str) (d : dict) :
  serialize (kv :: d) = fst kv ++ 61%N :: serialize_value (snd kv) ++ tail_text d.
Proof.
  cbn [serialize]. unfold serialize_pair, tail_text.
  destruct d; [now rewrite app_nil_r|].
  rewrite <- app_assoc. reflexivity.
Qed.

Lemma plain_serialize (d : dict) :
  plain d = true -> no_dquote (serialize d) = true.
Proof.
  induction d as [|[k v] d IH]; [reflexivity|].
  cbn [plain]. intros H.
  apply andb_true_iff in H as [H Hd]. apply andb_true_iff in H as [H Hs].
  apply andb_true_iff in H as [Hk Hv].
  rewrite serialize_cons. cbn [fst snd]. unfold serialize_value.
  rewrite no_space_has_space in Hs. apply negb_true_iff in Hs. rewrite Hs.
  rewrite no_dquote_app. rewrite Hk. cbn [andb no_dquote forallb].
  change (forallb is_not_dquote (v ++ tail_text d)) with (no_dquote (v ++ tail_text d)).
  rewrite no_dquote_app, Hv. cbn [andb is_not_dquote].
  destruct d as [|kv d']; [reflexivity|]. cbn [tail_text no_dquote forallb].
  now apply IH.
Qed.

Lemma plain_tail_text (d : dict) :
  plain d = true -> no_dquote (tail_text d) = true.
Proof.
  intros H. destruct d as [|kv d']; [reflexivity|].
  cbn [tail_text no_dquote forallb]. now apply plain_serialize.
Qed.

Lemma tail_text_stop (d : dict) :
  match tail_text d with [] => True | c :: _ => is_nonspace c = false end.
Proof. destruct d; [exact I|reflexivity]. Qed.

(** The written value, followed by the rest of the serialization, is
    read as the value. *)
Lemma read_value (v : str) (d : dict) :
  (negb (has_space v) || no_dquote v) = true ->
  value_safe v d = true ->
  match quoted_value (serialize_value v ++ tail_text d) with
  | Some (v', rest) => v' = v /\ rest = tail_text d
  | None =>
      take_while is_nonspace (serialize_value v ++ tail_text d) = v
      /\ drop_while is_nonspace (serialize_value v ++ tail_text d) = tail_text d
  end.
Proof.
  intros Hok Hsafe. unfold serialize_value.
  destruct (has_space v) eqn:Hs.
  - (* written between double quotes *)
    cbn [negb orb] in Hok.
    assert (Hne : v <> []) by (intros ->; discriminate Hs).
    unfold quoted_value. cbn [app]. rewrite N.eqb_refl.
    rewrite <- app_assoc. cbn [app].
    destruct (take_while_app_stop is_not_dquote v (dquote :: tail_text d) Hok)
      as [T D]; [reflexivity|].
    rewrite T, D, N.eqb_refl. destruct v; [contradiction|]. now split.
  - (* written as it is *)
    assert (Hns : no_space v = true) by (now rewrite no_space_has_space, Hs).
    assert (Q : quoted_value (v ++ tail_text d) = None).
    { unfold quoted_value. destruct v as [|c w].
      - cbn [app]. destruct d; reflexivity.
      - cbn [app]. destruct (N.eqb c dquote) eqn:Ec; [|reflexivity].
        unfold value_safe in Hsafe. rewrite Ec, Hns in Hsafe. cbn [andb] in Hsafe.
        destruct w as [|c' w'].
        + cbn [app].
          destruct (drop_while_all is_not_dquote _ (plain_tail_text _ Hsafe)) as [-> _].
          now destruct (take_while is_not_dquote (tail_text d)).
        + apply orb_true_iff in Hsafe as [Hc'|Hw].
          * cbn [app take_while]. unfold is_not_dquote at 1. now rewrite Hc'.
          * apply andb_true_iff in Hw as [Hw Hd].
            assert (A : no_dquote ((c' :: w') ++ tail_text d) = true)
              by (now rewrite no_dquote_app, Hw, plain_tail_text).
            destruct (drop_while_all is_not_dquote _ A) as [-> _].
            now destruct (take_while is_not_dquote ((c' :: w') ++ tail_text d)). }
    rewrite Q. apply take_while_app_stop; [exact Hns|apply tail_text_stop].
Qed.

Lemma env_match_serialize (k v : str) (d : dict) :
  entry_ok (k, v) = true -> value_safe v d = true ->
  env_match (serialize ((k, v) :: d)) = Some (k, v, tail_text d).
Proof.
  unfold entry_ok. cbn [fst snd]. intros Hok Hsafe.
  apply andb_true_iff in Hok as [Hk Hv].
  rewrite serialize_cons. cbn [fst snd]. unfold env_match.
  assert (Hall : forallb is_name_char k = true)
    by (unfold is_name in Hk; destruct k; [discriminate|exact Hk]).
  destruct (take_while_app_stop is_name_char k
              (61%N :: serialize_value v ++ tail_text d) Hall) as [T D];
    [reflexivity|].
  rewrite T, D. destruct k as [|x name]; [discriminate|].
  rewrite N.eqb_refl.
  pose proof (read_value v d Hv Hsafe) as R.
  destruct (quoted_value (serialize_value v ++ tail_text d)) as [[v' rest]|].
  - destruct R as [-> ->]. reflexivity.
  - destruct R as [-> ->]. reflexivity.
Qed.

Lemma tokens_serialize (d : dict) :
  forallb entry_ok d = true -> quote_safe d = true ->
  tokens (serialize d) = d.
Proof.
  induction d as [|[k v] d IH]; [reflexivity|].
  cbn [forallb quote_safe]. intros Hok Hsafe.
  apply andb_true_iff in Hok as [Hkv Hok].
  apply andb_true_iff in Hsafe as [Hv Hsafe].
  rewrite (tokens_match _ _ _ _ (env_match_serialize _ _ _ Hkv Hv)). f_equal.
  destruct d as [|kv d']; [reflexivity|].
  cbn [tail_text]. rewrite tokens_skip; [now apply IH|reflexivity].
Qed.

(** ** A serialization has no white space around it *)

Lemma lstrip_id (s : str) : head_nonspace s = true -> lstrip s = s.
Proof.
  destruct s as [|c s]; [reflexivity|]. cbn [head_nonspace lstrip].
  unfold is_nonspace. now destruct (is_space c).
Qed.

Lemma strip_id (s : str) :
  head_nonspace s = true -> head_nonspace (rev s) = true -> strip s = s.
Proof.
  intros H1 H2. unfold strip. rewrite (lstrip_id _ H1), (lstrip_id _ H2).
  apply rev_involutive.
Qed.

Lemma head_nonspace_rev_app (a b : str) :
  b <> [] -> head_nonspace (rev b) = true -> head_nonspace (rev (a ++ b)) = true.
Proof.
  intros Hb H. rewrite rev_app_distr.
  destruct (rev b) as [|c r] eqn:E; [|exact H].
  apply (f_equal (@rev char)) in E. rewrite rev_involutive in E. contradiction.
Qed.

Lemma head_nonspace_rev_all (v : str) :
  no_space v = true -> head_nonspace (rev v) = true.
Proof.
  intros H. destruct (rev v) as [|c r] eqn:E; [reflexivity|].
  cbn [head_nonspace]. unfold no_space in H. rewrite forallb_forall in H.
  apply H. apply in_rev. rewrite E. now left.
Qed.

Lemma serialize_value_end (v : str) :
  head_nonspace (rev (61%N :: serialize_value v)) = true.
Proof.
  unfold serialize_value. destruct (has_space v) eqn:Hs.
  - change (61%N :: dquote :: v ++ [dquote])
      with ((61%N :: dquote :: v) ++ [dquote]).
    now rewrite rev_app_distr.
  - apply head_nonspace_rev_all. cbn [no_space forallb].
    fold (no_space v). now rewrite no_space_has_space, Hs.
Qed.

Lemma serialize_not_nil (kv : str * str) (d : dict) : serialize (kv :: d) <> [].
Proof.
  rewrite serialize_cons. destruct (fst kv); discriminate.
Qed.

Lemma serialize_end (d : dict) : head_nonspace (rev (serialize d)) = true.
Proof.
  induction d as [|kv d IH]; [reflexivity|].
  destruct d as [|kv' d'].
  - cbn [serialize]. unfold serialize_pair.
    apply head_nonspace_rev_app; [discriminate|apply serialize_value_end].
  - change (serialize (kv :: kv' :: d'))
      with (serialize_pair kv ++ 32%N :: serialize (kv' :: d')).
    change (serialize_pair kv ++ 32%N :: serialize (kv' :: d'))
      with (serialize_pair kv ++ [32%N] ++ serialize (kv' :: d')).
    rewrite app_assoc.
    apply head_nonspace_rev_app; [apply serialize_not_nil|exact IH].
Qed.

Lemma serialize_start (d : dict) :
  forallb entry_ok d = true -> head_nonspace (serialize d) = true.
Proof.
  destruct d as [|[k v] d]; [reflexivity|].
  cbn [forallb]. intros H. apply andb_true_iff in H as [H _].
  unfold entry_ok in H. cbn [fst snd] in H. apply andb_true_iff in H as [H _].
  rewrite serialize_cons. cbn [fst]. destruct k as [|x name]; [discriminate|].
  cbn [app head_nonspace]. unfold is_name in H. cbn [forallb] in H.
  apply andb_true_iff in H as [H _]. unfold is_nonspace.
  now rewrite (name_char_not_space _ H).
Qed.

Lemma strip_serialize (d : dict) :
  forallb entry_ok d = true -> strip (serialize d) = serialize d.
Proof.
  intros H. apply strip_id; [now apply serialize_start|apply serialize_end].
Qed.

(** ** Dictionaries *)

Lemma dict_get_app (k : str) (a b : dict) :
  dict_get k (a ++ b)
  = match dict_get k a with
    | Some v => Some v
    | None => dict_get k b
    end.
Proof.
  induction a as [|[k' v'] a IH]; cbn [app dict_get]; [reflexivity|].
  now destruct (str_eqb k k').
Qed.

Lemma dict_get_none (k : str) (d : dict) :
  dict_get k d = None <-> ~ In k (List.map fst d).
Proof.
  induction d as [|[k' v'] d IH]; cbn [dict_get List.map fst In].
  - tauto'.
  - destruct (str_eqb k k') eqn:E.
    + apply str_eqb_eq in E. subst k'. split; [discriminate|tauto'].
    + apply str_eqb_neq in E. rewrite IH. forget_platform; split; [intros H [A|A]|]; auto.
Qed.

Lemma dict_set_fresh (k v : str) (d : dict) :
  dict_get k d = None -> dict_set k v d = d ++ [(k, v)].
Proof.
  induction d as [|[k' v'] d IH]; cbn [dict_get dict_set app]; [reflexivity|].
  destruct (str_eqb k k'); [discriminate|]. intros H. now rewrite IH.
Qed.

Lemma dict_get_set (k k0 v0 : str) (d : dict) :
  dict_get k (dict_set k0 v0 d)
  = if str_eqb k k0 then Some v0 else dict_get k d.
Proof.
  induction d as [|[k' v'] d IH]; cbn [dict_set dict_get].
  - reflexivity.
  - destruct (str_eqb k0 k') eqn:E0; cbn [dict_get].
    + apply str_eqb_eq in E0. subst k'. now destruct (str_eqb k k0).
    + rewrite IH. destruct (str_eqb k k') eqn:E; [|reflexivity].
      apply str_eqb_eq in E. subst k'.
      destruct (str_eqb k k0) eqn:E1; [|reflexivity].
      apply str_eqb_eq in E1. subst k0. now rewrite str_eqb_refl in E0.
Qed.

(** [update] lets the keys of the argument win. *)
Lemma dict_get_update (k : str) (other d : dict) :
  dict_get k (dict_update d other)
  = match dict_get k (rev other) with
    | Some v => Some v
    | None => dict_get k d
    end.
Proof.
  unfold dict_update. revert d.
  induction other as [|[k0 v0] other IH]; intros d; cbn [fold_left rev fst snd].
  - reflexivity.
  - rewrite IH, dict_get_app, dict_get_set. cbn [dict_get].
    destruct (dict_get k (rev other)); [reflexivity|].
    now destruct (str_eqb k k0).
Qed.

Lemma dict_set_keys (k v : str) (d : dict) :
  List.map fst (dict_set k v d)
  = if mem k (List.map fst d) then List.map fst d else List.map fst d ++ [k].
Proof.
  unfold mem.
  induction d as [|[k' v'] d IH]; cbn [dict_set List.map fst existsb app];
    [reflexivity|].
  destruct (str_eqb k k'); cbn [List.map fst orb]; [reflexivity|].
  rewrite IH. now destruct (existsb (str_eqb k) (List.map fst d)).
Qed.

Lemma mem_In (x : str) (xs : list str) : mem x xs = true <-> In x xs.
Proof.
  unfold mem. rewrite existsb_exists. split.
  - intros (y & Hy & E). apply str_eqb_eq in E. now subst.
  - intros H. exists x. split; [exact H|apply str_eqb_refl].
Qed.

Lemma dict_set_NoDup (k v : str) (d : dict) :
  NoDup (List.map fst d) -> NoDup (List.map fst (dict_set k v d)).
Proof.
  intros H. rewrite dict_set_keys.
  destruct (mem k (List.map fst d)) eqn:E; [exact H|].
  apply NoDup_app; [exact H|repeat constructor; intros []|].
  intros x Hx [<-|[]]. apply mem_In in Hx. congruence.
Qed.

Lemma dict_update_NoDup (other d : dict) :
  NoDup (List.map fst d) -> NoDup (List.map fst (dict_update d other)).
Proof.
  unfold dict_update. revert d.
  induction other as [|[k v] other IH]; intros d H; cbn [fold_left fst snd];
    [exact H|].
  apply IH. now apply dict_set_NoDup.
Qed.

Lemma dict_set_In (e : str * str) (k v : str) (d : dict) :
  In e (dict_set k v d) -> e = (k, v) \/ In e d.
Proof.
  induction d as [|[k' v'] d IH]; cbn [dict_set In].
  - intros [H|[]]. now left.
  - destruct (str_eqb k k') eqn:E; cbn [In].
    + apply str_eqb_eq in E. subst k'. intros [H|H]; [now left|right; now right].
    + intros [H|H]; [right; now left|]. destruct (IH H); [now left|right; now right].
Qed.

Lemma dict_update_In (e : str * str) (other d : dict) :
  In e (dict_update d other) -> In e d \/ In e other.
Proof.
  unfold dict_update. revert d.
  induction other as [|[k v] other IH]; intros d; cbn [fold_left fst snd In];
    [tauto'|].
  intros H. destruct (IH _ H) as [H1|H1]; [|tauto'].
  destruct (dict_set_In _ _ _ _ H1); [subst|]; tauto'.
Qed.

(** Tokens with different names are stored in the order of the string. *)
Lemma dict_update_fresh (other d : dict) :
  NoDup (List.map fst other) ->
  (forall k, In k (List.map fst other) -> dict_get k d = None) ->
  dict_update d other = d ++ other.
Proof.
  unfold dict_update. revert d.
  induction other as [|[k v] other IH]; intros d Hnd Hd;
    cbn [fold_left fst snd List.map] in *.
  - now rewrite app_nil_r.
  - inversion Hnd as [|? ? Hk Hnd']; subst.
    rewrite dict_set_fresh by (apply Hd; now left).
    rewrite IH; [now rewrite <- app_assoc|exact Hnd'|].
    intros k' Hk'. rewrite dict_get_app, Hd by (now right).
    cbn [dict_get]. destruct (str_eqb k' k) eqn:E; [|reflexivity].
    apply str_eqb_eq in E. subst. contradiction.
Qed.

Lemma dict_update_nil (d : dict) :
  NoDup (List.map fst d) -> dict_update [] d = d.
Proof.
  intros H. now apply dict_update_fresh.
Qed.

(** ** The round trip of parse_env_vars *)

Lemma no_leading_dquote_safe (d : dict) :
  no_leading_dquote d = true -> quote_safe d = true.
Proof.
  induction d as [|[k v] d IH]; [reflexivity|].
  cbn [no_leading_dquote forallb quote_safe snd]. intros H.
  apply andb_true_iff in H as [Hv Hd]. rewrite (IH Hd), andb_true_r.
  unfold value_safe. destruct v as [|c w]; [reflexivity|].
  cbn [starts_with_dquote] in Hv. apply negb_true_iff in Hv. now rewrite Hv.
Qed.

Lemma parse_env_vars_entry_ok (s : str) :
  forallb entry_ok (parse_env_vars s) = true.
Proof.
  rewrite parse_env_vars_tokens. apply forallb_forall. intros e He.
  apply dict_update_In in He as [[]|He].
  pose proof (tokens_entry_ok (strip s)) as T.
  rewrite forallb_forall in T. now apply T.
Qed.

Lemma parse_env_vars_NoDup (s : str) :
  NoDup (List.map fst (parse_env_vars s)).
Proof.
  rewrite parse_env_vars_tokens. apply dict_update_NoDup. constructor.
Qed.

Lemma read_back (d : dict) :
  forallb entry_ok d = true -> quote_safe d = true ->
  NoDup (List.map fst d) ->
  parse_env_vars (serialize d) = d.
Proof.
  intros Hok Hsafe Hnd.
  rewrite parse_env_vars_tokens, strip_serialize by exact Hok.
  rewrite tokens_serialize by assumption.
  now apply dict_update_nil.
Qed.

(** C7 (amended). Parsing an environment string, writing the map as
    [KEY=value] pairs separated by a space, in the order of the
    dictionary and with every value that contains white space between
    double quotes, and parsing that text again gives the dictionary of
    the first parse, when no name is assigned twice in the string or no
    value of the first parse starts with a double quote. Malformed
    tokens do not matter. *)
Theorem parse_serialize_roundtrip (s : str) :
  NoDup (env_names s) \/ no_leading_dquote (parse_env_vars s) = true ->
  parse_env_vars (serialize (parse_env_vars s)) = parse_env_vars s.
Proof.
  intros [H|H].
  - rewrite env_names_tokens in H.
    rewrite <- (map_map fst (@Some str)) in H. apply NoDup_map_inv in H.
    rewrite (parse_env_vars_tokens s), (dict_update_nil _ H).
    apply read_back; [apply tokens_entry_ok|apply tokens_quote_safe|exact H].
  - apply read_back.
    + apply parse_env_vars_entry_ok.
    + now apply no_leading_dquote_safe.
    + apply parse_env_vars_NoDup.
Qed.

(** ** Computations *)

Lemma bind_ret_l {A B : Type} (a : A) (f : A -> M B) (w : World) :
  bind (ret a) f w = f a w.
Proof. unfold bind, ret. now destruct (f a w) as [[r w2] t2]. Qed.

Lemma bind_ret_r {A : Type} (m : M A) (w : World) : bind m ret w = m w.
Proof.
  unfold bind, ret. destruct (m w) as [[[a|e] w1] t1]; [|reflexivity].
  now rewrite app_nil_r.
Qed.

Lemma bind_assoc {A B C : Type} (m : M A) (f : A -> M B) (g : B -> M C)
    (w : World) :
  bind (bind m f) g w = bind m (fun a => bind (f a) g) w.
Proof.
  unfold bind. destruct (m w) as [[[a|e] w1] t1]; [|reflexivity].
  destruct (f a w1) as [[[b|e] w2] t2]; [|reflexivity].
  destruct (g b w2) as [[r w3] t3]. now rewrite app_assoc.
Qed.

Lemma bind_ext {A B : Type} (m : M A) (f g : A -> M B) (w : World) :
  (forall a w', f a w' = g a w') -> bind m f w = bind m g w.
Proof.
  intros H. unfold bind. destruct (m w) as [[[a|e] w1] t1]; [|reflexivity].
  now rewrite H.
Qed.

Lemma bind_ext_l {A B : Type} (m m' : M A) (f : A -> M B) (w : World) :
  m w = m' w -> bind m f w = bind m' f w.
Proof. unfold bind. now intros ->. Qed.

(** ** The loops of main and the Matrix Expander *)

Lemma row_skipped_applies (r : row) (rust_ver : str) :
  row_skipped r rust_ver = negb (row_applies rust_ver r).
Proof. unfold row_skipped, row_applies. now destruct (row_rust r). Qed.

Lemma numbered_app (version : str) (i : nat) (a b : list dict) :
  numbered version i (a ++ b)
  = numbered version i a ++ numbered version (i + length a) b.
Proof.
  revert i. induction a as [|e a IH]; intros i; cbn [app numbered length].
  - now rewrite Nat.add_0_r.
  - rewrite IH. now rewrite Nat.add_succ_r.
Qed.

Lemma exec_specs_app (run : list str -> str -> nat -> dict -> M bool)
    (script : list str) (a b : list run_spec) :
  forall results w,
    exec_specs run script (a ++ b) results w
    = bind (exec_specs run script a results)
           (fun res => exec_specs run script b res) w.
Proof.
  induction a as [|sp a IH]; intros results w; cbn [app exec_specs].
  - now rewrite bind_ret_l.
  - rewrite bind_assoc. apply bind_ext. intros ok w'. apply IH.
Qed.

Lemma rows_loop_exec (run : list str -> str -> nat -> dict -> M bool)
    (script : list str) (rust_ver : str) (env_vars : dict) (rows : list row) :
  forall seq_id results w,
    rows_loop run script rust_ver env_vars rows seq_id results w
    = bind (exec_specs run script
              (numbered rust_ver seq_id (row_envs rust_ver env_vars rows))
              results)
           (fun res =>
              ret (seq_id + length (row_envs rust_ver env_vars rows), res)) w.
Proof.
  unfold row_envs.
  induction rows as [|r rows IH]; intros seq_id results w;
    cbn [rows_loop filter].
  - cbn [List.map numbered exec_specs length]. rewrite bind_ret_l.
    now rewrite Nat.add_0_r.
  - rewrite row_skipped_applies. destruct (row_applies rust_ver r);
      cbn [negb]; [|apply IH].
    cbn [List.map numbered exec_specs length rs_version rs_index rs_env].
    rewrite bind_assoc. apply bind_ext. intros ok w'. rewrite IH.
    now rewrite Nat.add_succ_r.
Qed.

Lemma row_envs_synthetic (rust_ver : str) (env_vars : dict) (rows : list row) :
  row_envs rust_ver env_vars (synthetic_row :: rows)
  = row_envs rust_ver env_vars (empty_row :: rows).
Proof. reflexivity. Qed.

Lemma spec_envs_cons (version alt : str) (alts : list str) (rows : list row) :
  spec_envs version (alt :: alts) rows
  = row_envs version (parse_env_vars alt) (synthetic_row :: rows)
    ++ spec_envs version alts rows.
Proof. reflexivity. Qed.

Lemma envs_loop_exec (run : list str -> str -> nat -> dict -> M bool)
    (script : list str) (rust_ver : str) (env_strs : list str)
    (matrix_includes : list row) :
  forall seq_id results w,
    envs_loop run script rust_ver env_strs matrix_includes seq_id results w
    = bind (exec_specs run script
              (numbered rust_ver seq_id
                 (spec_envs rust_ver env_strs matrix_includes))
              results)
           (fun res =>
              ret (seq_id
                   + length (spec_envs rust_ver env_strs matrix_includes),
                   res)) w.
Proof.
  induction env_strs as [|e env_strs IH]; intros seq_id results w;
    cbn [envs_loop].
  - cbn [spec_envs flat_map numbered exec_specs length].
    rewrite bind_ret_l. now rewrite Nat.add_0_r.
  - rewrite spec_envs_cons, row_envs_synthetic, numbered_app.
    rewrite (bind_ext_l _ _ _ w (rows_loop_exec run script rust_ver
               (parse_env_vars e) (empty_row :: matrix_includes)
               seq_id results w)).
    rewrite (bind_ext_l _ _ _ w (exec_specs_app run script _ _ results w)).
    rewrite !bind_assoc. apply bind_ext. intros res w'.
    rewrite bind_ret_l. cbn [fst snd]. rewrite IH.
    apply bind_ext. intros res' w''. now rewrite length_app, Nat.add_assoc.
Qed.

Lemma vers_loop_exec (run : list str -> str -> nat -> dict -> M bool)
    (script : list str) (rust_vers env_strs : list str)
    (matrix_includes : list row) :
  forall results w,
    vers_loop run script rust_vers env_strs matrix_includes results w
    = exec_specs run script
        (flat_map (fun v => spec_expand v env_strs matrix_includes) rust_vers)
        results w.
Proof.
  induction rust_vers as [|v rust_vers IH]; intros results w;
    cbn [vers_loop flat_map]; [reflexivity|].
  rewrite exec_specs_app.
  rewrite (bind_ext_l _ _ _ w (envs_loop_exec run script v env_strs
             matrix_includes 0 results w)).
  rewrite bind_assoc. apply bind_ext. intros res w'.
  rewrite bind_ret_l. cbn [snd]. apply IH.
Qed.

Lemma dict_get_In (k v : str) (d : dict) :
  NoDup (List.map fst d) -> (dict_get k d = Some v <-> In (k, v) d).
Proof.
  induction d as [|[k' v'] d IH]; cbn [List.map fst dict_get In]; intros Hnd.
  - split; [discriminate|tauto'].
  - inversion Hnd as [|? ? Hk Hnd']; subst.
    destruct (str_eqb k k') eqn:E.
    + apply str_eqb_eq in E. subst k'. split.
      * intros H. injection H as <-. now left.
      * intros [H|H]; [now injection H as <-|].
        exfalso. apply Hk. now apply (in_map fst) in H.
    + apply str_eqb_neq in E. rewrite (IH Hnd'). split; [tauto'|].
      intros [H|H]; [|exact H]. injection H as <- _. contradiction.
Qed.

Lemma dict_get_rev (k : str) (d : dict) :
  NoDup (List.map fst d) -> dict_get k (rev d) = dict_get k d.
Proof.
  intros Hnd.
  assert (Hr : NoDup (List.map fst (rev d))) by (rewrite map_rev; now apply NoDup_rev).
  destruct (dict_get k d) as [v|] eqn:E.
  - apply (dict_get_In _ _ _ Hr). apply -> in_rev. now apply (dict_get_In _ _ _ Hnd).
  - destruct (dict_get k (rev d)) as [v|] eqn:E'; [|reflexivity].
    apply (dict_get_In _ _ _ Hr) in E'. apply in_rev in E'.
    apply (dict_get_In _ _ _ Hnd) in E'. congruence.
Qed.

(** The merge of lines 66-68 on dictionaries: the keys of the row win. *)
Lemma merged_env_get (k : str) (env_vars row_env_vars : dict) :
  NoDup (List.map fst env_vars) -> NoDup (List.map fst row_env_vars) ->
  dict_get k (merged_env env_vars row_env_vars)
  = match dict_get k row_env_vars with
    | Some v => Some v
    | None => dict_get k env_vars
    end.
Proof.
  intros Ha Hb. unfold merged_env. rewrite !dict_get_update.
  rewrite (dict_get_rev _ _ Ha), (dict_get_rev _ _ Hb). cbn [dict_get].
  destruct (dict_get k row_env_vars); [reflexivity|].
  now destruct (dict_get k env_vars).
Qed.

(** C2. The loops of lines 56-72 call [run] on the run specifications
    of the Matrix Expander of the specification, in its order: for
    every version of the run list in turn, for every environment
    string in turn, the synthetic row and then the configured rows,
    without the rows pinned to another version, numbered from zero for
    each version. The environment of a run is the environment string's
    map overlaid with the row's map: a key of the row has the row's
    value, any other key the value of the environment string. *)
Theorem matrix_expander_refines_spec
    (run : list str -> str -> nat -> dict -> M bool) (script : list str)
    (rust_vers env_strs : list str) (matrix_includes : list row)
    (results : list run_result) (w : World) :
  vers_loop run script rust_vers env_strs matrix_includes results w
  = exec_specs run script
      (flat_map (fun v => spec_expand v env_strs matrix_includes) rust_vers)
      results w
  /\ (forall v sp,
        In sp (spec_expand v env_strs matrix_includes) ->
        rs_version sp = v
        /\ exists alt r,
             In alt env_strs
             /\ In r (synthetic_row :: matrix_includes)
             /\ (row_rust r = None \/ row_rust r = Some v)
             /\ forall k,
                  dict_get k (rs_env sp)
                  = match dict_get k (parse_env_vars (row_env_string r)) with
                    | Some x => Some x
                    | None => dict_get k (parse_env_vars alt)
                    end).
Proof.
  split; [apply vers_loop_exec|].
  intros v sp. unfold spec_expand.
  assert (G : forall i envs,
             In sp (numbered v i envs) -> rs_version sp = v /\ In (rs_env sp) envs).
  { intros i envs; revert i. induction envs as [|e envs IH]; intros i;
      cbn [numbered In]; [tauto'|].
    intros [<-|H]; [split; [reflexivity|now left]|].
    destruct (IH _ H). split; [assumption|now right]. }
  intros H. apply G in H as [Hv He]. split; [exact Hv|].
  unfold spec_envs in He. apply in_flat_map in He as (alt & Halt & He).
  apply in_map_iff in He as (r & Hr & Hin).
  apply filter_In in Hin as [Hin Happ].
  exists alt, r. repeat split; try assumption.
  - unfold row_applies in Happ. destruct (row_rust r) as [p|]; [|now left].
    right. apply str_eqb_eq in Happ. now subst.
  - intros k. rewrite <- Hr. apply merged_env_get; apply parse_env_vars_NoDup.
Qed.

(** ** The steps of a run *)

Lemma run_steps_cons (rust_ver : str) (cmd_env : dict) (cmd : str)
    (script : list str) (w : World) :
  run_steps rust_ver cmd_env (cmd :: script) w
  = match substitute cmd_env cmd with
    | Raise e => (Raise e, w, [])
    | Ok cmd1 =>
        let cmd_line :=
          LogWrite (LogCommand
            (lit "> multirust run " ++ rust_ver ++ lit " " ++ cmd1)) in
        match run_shell (step_command rust_ver cmd1) cmd_env w with
        | (true, w1) =>
            match run_steps rust_ver cmd_env script w1 with
            | (r, w2, t2) =>
                (r, w2,
                 cmd_line :: LogFlush
                 :: Sh (step_command rust_ver cmd1) cmd_env true :: t2)
            end
        | (false, w1) =>
            (Ok false, w1,
             [cmd_line; LogFlush; Sh (step_command rust_ver cmd1) cmd_env false;
              LogWrite LogCommandFailed; LogFlush])
        end
    end.
Proof.
  cbn [run_steps]. unfold bind, lift, emit, sh, ret.
  destruct (substitute cmd_env cmd) as [cmd1|e]; [|reflexivity].
  destruct (run_shell (step_command rust_ver cmd1) cmd_env w) as [[|] w1];
    [|reflexivity].
  now destruct (run_steps rust_ver cmd_env script w1) as [[r w2] t2].
Qed.

Lemma sub_pieces_raises (cmd_env : dict) (ps : list piece) (e : exn) :
  sub_pieces (sub_env cmd_env) ps = Raise e -> exists key, e = KeyError key.
Proof.
  induction ps as [|[c|g] ps IH]; cbn [sub_pieces]; [discriminate| |].
  - destruct (sub_pieces (sub_env cmd_env) ps); [discriminate|].
    intros H. injection H as <-. now apply IH.
  - destruct (sub_env cmd_env g) as [v|e'] eqn:E.
    + destruct (sub_pieces (sub_env cmd_env) ps); [discriminate|].
      intros H. injection H as <-. now apply IH.
    + intros H. injection H as <-. unfold sub_env in E.
      destruct (py_or (group 1 g) (group 2 g)) as [n|].
      * destruct (dict_get n cmd_env); [discriminate|].
        injection E as <-. now eexists.
      * injection E as <-. now eexists.
Qed.

Lemma substitute_raises (cmd_env : dict) (cmd : str) (e : exn) :
  substitute cmd_env cmd = Raise e -> exists key, e = KeyError key.
Proof. apply sub_pieces_raises. Qed.

Lemma run_steps_spec (rust_ver : str) (cmd_env : dict) (script : list str) :
  forall w,
    (exists j,
       steps_end cmd_env script j
         (outcome (run_steps rust_ver cmd_env script w))
         (sh_results (trace (run_steps rust_ver cmd_env script w))))
    /\ Forall2 (ran_step rust_ver cmd_env)
         (firstn (length (sh_events (trace (run_steps rust_ver cmd_env script w))))
            script)
         (sh_events (trace (run_steps rust_ver cmd_env script w)))
    /\ run_starts (trace (run_steps rust_ver cmd_env script w)) = [].
Proof.
  induction script as [|cmd script IH]; intros w.
  - cbn. split; [exists 0; left; now repeat split|]. split; constructor.
  - rewrite run_steps_cons.
    destruct (substitute cmd_env cmd) as [cmd1|e] eqn:Es.
    + destruct (run_shell (step_command rust_ver cmd1) cmd_env w) as [[|] w1].
      * destruct (IH w1) as ((j & Hj) & Hran & Hst).
        destruct (run_steps rust_ver cmd_env script w1) as [[r w2] t2].
        unfold outcome, trace, sh_results in *. cbn [fst snd] in *.
        cbn [sh_events run_starts List.map length firstn snd].
        split; [|split; [|exact Hst]].
        -- exists (S j).
           destruct Hj as [(-> & -> & ->)|[(-> & Hlt & ->)|(c & key & -> & Hn & Hs & ->)]].
           ++ left. now repeat split.
           ++ right; left. repeat split; try reflexivity; simpl; lia.
           ++ right; right. exists c, key. now repeat split.
        -- constructor; [|exact Hran]. exists cmd1. now repeat split.
      * unfold outcome, trace, sh_results. cbn.
        split; [exists 0; right; left; repeat split; try reflexivity; simpl; lia|].
        split; [|reflexivity].
        constructor; [|constructor]. exists cmd1. now repeat split.
    + unfold outcome, trace, sh_results. cbn.
      destruct (substitute_raises _ _ _ Es) as (key & ->).
      split; [exists 0; right; right; exists cmd, key; now repeat split|].
      split; constructor.
Qed.

(** ** One run *)

Lemma run_starts_app (a b : list event) :
  run_starts (a ++ b) = run_starts a ++ run_starts b.
Proof.
  induction a as [|e a IH]; [reflexivity|].
  destruct e as [|m| | | | | |]; cbn [app run_starts]; try exact IH.
  destruct m; cbn [app]; now rewrite ?IH.
Qed.

Lemma sh_events_app (a b : list event) :
  sh_events (a ++ b) = sh_events a ++ sh_events b.
Proof.
  induction a as [|e a IH]; [reflexivity|].
  destruct e; cbn [app sh_events]; now rewrite ?IH.
Qed.

Lemma log_events_app (a b : list event) :
  log_events (a ++ b) = log_events a ++ log_events b.
Proof.
  induction a as [|e a IH]; [reflexivity|].
  destruct e; cbn [app log_events]; now rewrite ?IH.
Qed.

Lemma log_variables_run (items : dict) (w : World) :
  log_variables items w = (Ok tt, w, variable_lines items).
Proof.
  induction items as [|[k v] items IH]; [reflexivity|].
  cbn [log_variables]. unfold bind, emit. now rewrite IH.
Qed.

Lemma variable_lines_quiet (items : dict) :
  run_starts (variable_lines items) = [] /\ sh_events (variable_lines items) = [].
Proof. induction items as [|[k v] items [IH1 IH2]]; now split. Qed.

Lemma run_script_steps (script : list str) (rust_ver : str) (seq_id : nat)
    (env : dict) (w : World) :
  run_script script rust_ver seq_id env w
  = match run_steps rust_ver (effective_env rust_ver seq_id env) script w with
    | (Ok success, w', t) =>
        (Ok success, w',
         run_header rust_ver seq_id env
         ++ t ++ [Say (MsgOutcome success); LogClose])
    | (Raise e, w', t) => (Raise e, w', run_header rust_ver seq_id env ++ t)
    end.
Proof.
  unfold run_script, run_header, bind, msg, emit, ret.
  rewrite log_variables_run.
  destruct (run_steps rust_ver (effective_env rust_ver seq_id env) script w)
    as [[[ok|e] w'] t]; cbn [app]; reflexivity.
Qed.

Lemma run_script_observed (script : list str) (rust_ver : str) (seq_id : nat)
    (env : dict) (w : World) :
  outcome (run_script script rust_ver seq_id env w)
  = outcome (run_steps rust_ver (effective_env rust_ver seq_id env) script w)
  /\ sh_events (trace (run_script script rust_ver seq_id env w))
     = sh_events (trace (run_steps rust_ver (effective_env rust_ver seq_id env)
                           script w))
  /\ run_starts (trace (run_script script rust_ver seq_id env w))
     = [(rust_ver, seq_id)].
Proof.
  rewrite run_script_steps.
  destruct (run_steps_spec rust_ver (effective_env rust_ver seq_id env) script w)
    as (_ & _ & Hst).
  destruct (variable_lines_quiet env) as [V1 V2].
  destruct (run_steps rust_ver (effective_env rust_ver seq_id env) script w)
    as [[[ok|e] w'] t]; unfold outcome, trace in *; cbn [fst snd] in *;
    unfold run_header;
    rewrite ?sh_events_app, ?run_starts_app;
    cbn [sh_events run_starts app]; rewrite ?sh_events_app, ?run_starts_app;
    rewrite V1, V2, Hst; cbn [sh_events run_starts app];
    rewrite ?app_nil_r; repeat split; reflexivity.
Qed.

Lemma repeat_true_false (i j : nat) :
  nth_error (repeat true j ++ [false]) i = Some false -> i = j.
Proof.
  revert i. induction j as [|j IH]; intros [|i]; cbn; try discriminate.
  - reflexivity.
  - now destruct i.
  - intros H. f_equal. now apply IH.
Qed.

Lemma repeat_true_nth (i j : nat) : nth_error (repeat true j) i <> Some false.
Proof.
  revert i. induction j as [|j IH]; intros [|i]; cbn; try discriminate.
  apply IH.
Qed.

Lemma firstn_repeat_app (j : nat) (l : list bool) :
  firstn j (repeat true j ++ l) = repeat true j.
Proof. induction j as [|j IH]; cbn; [reflexivity|now rewrite IH]. Qed.

Lemma repeat_true_all (j : nat) : forallb (fun b : bool => b) (repeat true j) = true.
Proof. induction j; [reflexivity|exact IHj]. Qed.

(** C6. In a run, the child processes that were started are the first
    steps of the script, substituted, in order. When the child of step
    [i] fails (it exits with a status other than zero or cannot be
    started), it is the last child of the run, every earlier one
    succeeded, and [run_script] returns [False]; [run_script] returns
    [True] only when every step of the script ran and succeeded. The
    loop over the rows then records the result of the run, whatever it
    is, and goes on with the next row. *)
Theorem first_failing_step_ends_run (script : list str) (rust_ver : str)
    (seq_id : nat) (env : dict) (w : World) :
  let out := run_script script rust_ver seq_id env w in
  Forall2 (ran_step rust_ver (effective_env rust_ver seq_id env))
    (firstn (length (sh_events (trace out))) script) (sh_events (trace out))
  /\ (forall i,
        nth_error (sh_results (trace out)) i = Some false ->
        length (sh_results (trace out)) = S i
        /\ i < length script
        /\ firstn i (sh_results (trace out)) = repeat true i
        /\ outcome out = Ok false)
  /\ (outcome out = Ok true ->
      length (sh_results (trace out)) = length script
      /\ forallb (fun ok : bool => ok) (sh_results (trace out)) = true)
  /\ (forall success r rows env_vars results,
        outcome out = Ok success ->
        row_skipped r rust_ver = false ->
        env = merged_env env_vars (parse_env_vars (row_env_string r)) ->
        rows_loop run_script script rust_ver env_vars (r :: rows) seq_id results w
        = match rows_loop run_script script rust_ver env_vars rows (S seq_id)
                  (results ++ [(rust_ver, seq_id, success)]) (world out) with
          | (r2, w2, t2) => (r2, w2, trace out ++ t2)
          end).
Proof.
  cbv zeta.
  destruct (run_script_observed script rust_ver seq_id env w) as (Ho & Hsh & _).
  destruct (run_steps_spec rust_ver (effective_env rust_ver seq_id env) script w)
    as ((j & Hj) & Hran & _).
  unfold sh_results in *.
  split; [|split; [|split]].
  - rewrite Hsh. exact Hran.
  - rewrite Ho, Hsh. intros i Hi.
    destruct Hj as [(_ & _ & E)|[(E1 & Hlt & E)|(c & key & _ & _ & _ & E)]];
      rewrite E in Hi |- *.
    + now apply repeat_true_nth in Hi.
    + apply repeat_true_false in Hi. subst i.
      rewrite length_app, repeat_length, firstn_repeat_app. cbn [length].
      repeat split; try assumption; lia.
    + now apply repeat_true_nth in Hi.
  - rewrite Ho, Hsh. intros Hok.
    destruct Hj as [(_ & -> & ->)|[(E1 & _)|(c & key & E1 & _)]];
      [|congruence|congruence].
    split; [apply repeat_length|apply repeat_true_all].
  - intros success r rows env_vars results Hs Hr ->.
    cbn [rows_loop]. rewrite Hr. unfold bind, world, trace.
    unfold outcome in Hs.
    destruct (run_script script rust_ver seq_id
                (merged_env env_vars (parse_env_vars (row_env_string r))) w)
      as [[ro w1] t1]. cbn [fst snd] in *. subst ro. reflexivity.
Qed.

(** ** The sequence numbers of the runs *)

Lemma spec_key_numbered (version : str) (envs : list dict) :
  forall i,
    List.map spec_key (numbered version i envs)
    = List.map (pair version) (seq i (length envs)).
Proof.
  induction envs as [|e envs IH]; intros i; cbn; [reflexivity|].
  now rewrite IH.
Qed.

Lemma spec_keys (rust_vers env_strs : list str) (rows : list row) :
  List.map spec_key
    (flat_map (fun v => spec_expand v env_strs rows) rust_vers)
  = flat_map (fun v => block (v, length (spec_envs v env_strs rows))) rust_vers.
Proof.
  induction rust_vers as [|v rust_vers IH]; cbn [flat_map List.map];
    [reflexivity|].
  rewrite map_app, IH. unfold spec_expand. now rewrite spec_key_numbered.
Qed.

Lemma firstn_seq_min (j : nat) :
  forall a n, firstn j (seq a n) = seq a (Nat.min j n).
Proof.
  induction j as [|j IH]; intros a [|n]; cbn; try reflexivity.
  now rewrite IH.
Qed.

(** The first [j] runs of a list of version blocks are version blocks
    again, the last of them perhaps shorter. *)
Lemma firstn_blocks (n : str -> nat) (rust_vers : list str) :
  forall j,
    exists ks,
      length ks = length rust_vers
      /\ Forall2 (fun v k => k <= n v) rust_vers ks
      /\ firstn j (flat_map (fun v => block (v, n v)) rust_vers)
         = flat_map block (combine rust_vers ks)
      /\ (length (flat_map (fun v => block (v, n v)) rust_vers) <= j ->
          ks = List.map n rust_vers).
Proof.
  induction rust_vers as [|v rust_vers IH]; intros j.
  - exists []. cbn. rewrite firstn_nil. repeat split; constructor.
  - destruct (IH (j - n v)) as (ks & Hlen & Hle & Hf & Hall).
    exists (Nat.min j (n v) :: ks). cbn [flat_map combine length List.map].
    assert (Lb : length (block (v, n v)) = n v)
      by (unfold block; cbn [fst snd]; now rewrite length_map, length_seq).
    split; [now rewrite Hlen|]. split; [constructor; [lia|exact Hle]|]. split.
    + rewrite firstn_app, Lb, Hf. f_equal.
      unfold block. cbn [fst snd]. now rewrite firstn_map, firstn_seq_min.
    + rewrite length_app, Lb. intros H. rewrite Hall by lia. f_equal. lia.
Qed.

Lemma exec_specs_starts (script : list str) (specs : list run_spec) :
  forall results w,
    exists j,
      j <= length specs
      /\ run_starts (trace (exec_specs run_script script specs results w))
         = firstn j (List.map spec_key specs)
      /\ (forall res,
            outcome (exec_specs run_script script specs results w) = Ok res ->
            j = length specs
            /\ List.map result_key res
               = List.map result_key results ++ List.map spec_key specs).
Proof.
  induction specs as [|sp specs IH]; intros results w.
  - exists 0. cbn. split; [lia|]. split; [reflexivity|].
    intros res H. injection H as <-. now rewrite app_nil_r.
  - cbn [exec_specs]. unfold bind.
    destruct (run_script_observed script (rs_version sp) (rs_index sp)
                (rs_env sp) w) as (_ & _ & Hst).
    destruct (run_script script (rs_version sp) (rs_index sp) (rs_env sp) w)
      as [[[ok|e] w1] t1]; unfold trace, outcome in *; cbn [fst snd] in *.
    + destruct (IH (results ++ [(rs_version sp, rs_index sp, ok)]) w1)
        as (j & Hj & Hs & Hok).
      destruct (exec_specs run_script script specs
                  (results ++ [(rs_version sp, rs_index sp, ok)]) w1)
        as [[r w2] t2]. cbn [fst snd] in *.
      exists (S j). split; [simpl; lia|]. split.
      * rewrite run_starts_app, Hst, Hs. reflexivity.
      * intros res Hres. destruct (Hok res Hres) as [-> ->].
        split; [reflexivity|]. rewrite map_app, <- app_assoc. reflexivity.
    + exists 1. split; [simpl; lia|]. split; [exact Hst|discriminate].
Qed.

(** C3. The runs started by the loops of lines 56-72 are, for every
    version of the run list in turn, numbered 0, 1, ..., k-1 without a
    gap, in the order they are started, where k is the number of runs
    started for that version; rows that are skipped consume no number.
    When the loops end without an exception, k is for every version
    the number of (environment string, row) pairs whose row applies to
    it, and the results list holds these (version, number) pairs in
    the same order. *)
Theorem sequence_numbers_have_no_gaps (script : list str)
    (rust_vers env_strs : list str) (matrix_includes : list row)
    (results : list run_result) (w : World) :
  let out :=
    vers_loop run_script script rust_vers env_strs matrix_includes results w in
  exists ks,
    length ks = length rust_vers
    /\ run_starts (trace out) = flat_map block (combine rust_vers ks)
    /\ Forall2 (fun v k => k <= length (spec_envs v env_strs matrix_includes))
         rust_vers ks
    /\ (forall res,
          outcome out = Ok res ->
          ks = List.map (fun v => length (spec_envs v env_strs matrix_includes))
                 rust_vers
          /\ List.map result_key res
             = List.map result_key results ++ run_starts (trace out)).
Proof.
  cbv zeta. rewrite vers_loop_exec.
  destruct (exec_specs_starts script
              (flat_map (fun v => spec_expand v env_strs matrix_includes) rust_vers)
              results w) as (j & Hj & Hs & Hok).
  rewrite spec_keys in Hs.
  destruct (firstn_blocks (fun v => length (spec_envs v env_strs matrix_includes))
              rust_vers j) as (ks & Hlen & Hle & Hf & Hall).
  exists ks. split; [exact Hlen|]. split; [now rewrite Hs|].
  split; [exact Hle|].
  intros res Hres. destruct (Hok res Hres) as [-> Hmap].
  rewrite <- spec_keys in Hall at 1. rewrite length_map in Hall.
  split; [now apply Hall|].
  rewrite Hmap, Hs, spec_keys. f_equal.
  rewrite <- (length_map spec_key), spec_keys. now rewrite firstn_all.
Qed.

(** ** main *)

Lemma report_run (results : list run_result) (w : World) :
  report results w = (Ok tt, w, result_lines results).
Proof.
  induction results as [|[[v i] ok] results IH]; [reflexivity|].
  cbn [report]. unfold bind, msg, emit. now rewrite IH.
Qed.

(** The loop over the arguments returns without any effect, or stops
    at an argument with the message of line 46 and [sys.exit(1)]. *)
Lemma args_loop_cases (vers args : list str) :
  forall include_vers exclude_vers w,
    (exists sel, args_loop vers args include_vers exclude_vers w = (Ok sel, w, []))
    \/ (exists arg,
          In arg args
          /\ args_loop vers args include_vers exclude_vers w
             = (Raise (SystemExit 1), w, [Say (MsgUnknownArgument arg)])).
Proof.
  induction args as [|arg args IH]; intros inc exc w; cbn [args_loop].
  - left. now eexists.
  - destruct (mem arg vers && negb (mem arg inc)).
    + destruct (IH (inc ++ [arg]) exc w) as [H|(a & Ha & H)]; [now left|].
      right. exists a. split; [now right|exact H].
    + destruct (startswith_minus arg && mem (tl arg) vers).
      * destruct (IH inc (tl arg :: exc) w) as [H|(a & Ha & H)]; [now left|].
        right. exists a. split; [now right|exact H].
      * right. exists arg. split; [now left|reflexivity].
Qed.

Lemma args_loop_unrecognized (vers args : list str) :
  existsb (fun a => negb (recognized vers a)) args = true ->
  forall include_vers exclude_vers w,
    exists arg,
      In arg args
      /\ args_loop vers args include_vers exclude_vers w
         = (Raise (SystemExit 1), w, [Say (MsgUnknownArgument arg)]).
Proof.
  induction args as [|arg args IH]; cbn [existsb]; [discriminate|].
  intros H inc exc w. cbn [args_loop]. unfold recognized in H.
  destruct (mem arg vers) eqn:Ev; cbn [orb negb andb] in *.
  - destruct (negb (mem arg inc)).
    + destruct (IH H (inc ++ [arg]) exc w) as (a & Ha & E).
      exists a. split; [now right|exact E].
    + destruct (startswith_minus arg && mem (tl arg) vers).
      * destruct (IH H inc (tl arg :: exc) w) as (a & Ha & E).
        exists a. split; [now right|exact E].
      * exists arg. split; [now left|reflexivity].
  - destruct (startswith_minus arg && mem (tl arg) vers); cbn [negb orb] in H.
    + destruct (IH H inc (tl arg :: exc) w) as (a & Ha & E).
      exists a. split; [now right|exact E].
    + exists arg. split; [now left|reflexivity].
Qed.

(** [main] in terms of its two loops. *)
Lemma main_unfold (travis : config) (args : list str) (w : World) :
  main travis args w
  = match args_loop (cfg_rust travis) args [] [] w with
    | (Ok sel, w1, t1) =>
        let rust_vers := resolve_vers (cfg_rust travis) (fst sel) (snd sel) in
        match vers_loop run_script (translate_script (cfg_script travis))
                rust_vers (env_strings_of travis) (matrix_includes_of travis)
                [] w1 with
        | (Ok results, w2, t2) =>
            (Ok results, w2,
             EnsureLogDir
             :: t1 ++ Say (MsgTestsWillRun rust_vers)
             :: t2 ++ PrintBlank :: Say MsgResults :: result_lines results)
        | (Raise e, w2, t2) =>
            (Raise e, w2,
             EnsureLogDir :: t1 ++ Say (MsgTestsWillRun rust_vers) :: t2)
        end
    | (Raise e, w1, t1) => (Raise e, w1, EnsureLogDir :: t1)
    end.
Proof.
  unfold main, bind, msg, emit, ret.
  destruct (args_loop (cfg_rust travis) args [] [] w) as [[[sel|e] w1] t1];
    [|reflexivity].
  cbv zeta.
  destruct (vers_loop run_script _ _ _ _ [] w1) as [[[results|e] w2] t2];
    [|reflexivity].
  rewrite report_run. cbn [app]. now rewrite app_nil_r.
Qed.

(** A run ends with a value or with a [KeyError]. *)
Lemma run_script_raises (script : list str) (rust_ver : str) (seq_id : nat)
    (env : dict) (w : World) (e : exn) :
  outcome (run_script script rust_ver seq_id env w) = Raise e ->
  exists key, e = KeyError key.
Proof.
  destruct (run_script_observed script rust_ver seq_id env w) as (-> & _).
  destruct (run_steps_spec rust_ver (effective_env rust_ver seq_id env) script w)
    as ((j & Hj) & _).
  intros H. rewrite H in Hj.
  destruct Hj as [(E & _)|[(E & _)|(c & key & E & _)]]; try discriminate.
  injection E as ->. now eexists.
Qed.

Lemma exec_specs_raises (script : list str) (specs : list run_spec) :
  forall results w e,
    outcome (exec_specs run_script script specs results w) = Raise e ->
    exists key, e = KeyError key.
Proof.
  induction specs as [|sp specs IH]; intros results w e; cbn [exec_specs].
  - discriminate.
  - unfold bind.
    pose proof (run_script_raises script (rs_version sp) (rs_index sp)
                  (rs_env sp) w) as R.
    destruct (run_script script (rs_version sp) (rs_index sp) (rs_env sp) w)
      as [[[ok|e'] w1] t1].
    + pose proof (IH (results ++ [(rs_version sp, rs_index sp, ok)]) w1 e) as I.
      destruct (exec_specs run_script script specs _ w1) as [[r w2] t2].
      exact I.
    + unfold outcome in *. cbn [fst] in *. intros H. injection H as <-.
      now apply R.
Qed.

(** C8. When an argument is neither a default version nor a default
    version after a minus sign, [main] prints the message of line 46
    for one of the arguments and ends with [sys.exit(1)]: the exit
    status is 1, no run was started, no child process was run and
    nothing was done to a log file. *)
Theorem unrecognized_argument_is_usage_error (travis : config)
    (args : list str) (w : World) :
  existsb (fun a => negb (recognized (cfg_rust travis) a)) args = true ->
  exists arg,
    In arg args
    /\ main travis args w
       = (Raise (SystemExit 1), w, [EnsureLogDir; Say (MsgUnknownArgument arg)])
    /\ exit_status (outcome (main travis args w)) = 1
    /\ run_starts (trace (main travis args w)) = []
    /\ sh_events (trace (main travis args w)) = []
    /\ log_events (trace (main travis args w)) = [].
Proof.
  intros H.
  destruct (args_loop_unrecognized (cfg_rust travis) args H [] [] w)
    as (arg & Harg & E).
  exists arg. split; [exact Harg|].
  rewrite main_unfold, E. repeat split.
Qed.

(** C9. When [main] returns, with whatever results, the exit status is
    zero. [main] calls [sys.exit] only for an argument it does not
    accept, with status 1 and before any run; the only other way to a
    status other than zero is an uncaught [KeyError]. *)
Theorem exit_status_ignores_run_results (travis : config) (args : list str)
    (w : World) :
  let out := main travis args w in
  (forall results, outcome out = Ok results -> exit_status (outcome out) = 0)
  /\ (forall code,
        outcome out = Raise (SystemExit code) ->
        code = 1
        /\ exists arg,
             In arg args
             /\ trace out = [EnsureLogDir; Say (MsgUnknownArgument arg)])
  /\ (exit_status (outcome out) <> 0 ->
      outcome out = Raise (SystemExit 1)
      \/ exists key, outcome out = Raise (KeyError key)).
Proof.
  cbv zeta. rewrite main_unfold.
  destruct (args_loop_cases (cfg_rust travis) args [] [] w)
    as [(sel & ->)|(arg & Harg & ->)].
  - cbv zeta.
    pose proof (exec_specs_raises (translate_script (cfg_script travis))
                  (flat_map (fun v => spec_expand v (env_strings_of travis)
                                        (matrix_includes_of travis))
                     (resolve_vers (cfg_rust travis) (fst sel) (snd sel)))
                  [] w) as R.
    rewrite <- vers_loop_exec in R.
    destruct (vers_loop run_script _ _ _ _ [] w) as [[[results|e] w2] t2];
      unfold outcome, trace in *; cbn [fst snd exit_status] in *.
    + split; [reflexivity|]. split; [intros code H; discriminate H|].
      intros H. now contradiction H.
    + destruct (R e eq_refl) as (key & ->).
      split; [intros results H; discriminate H|].
      split; [intros code H; discriminate H|].
      intros _. right. now eexists.
  - unfold outcome, trace. cbn [fst snd exit_status].
    split; [intros results H; discriminate H|]. split.
    + intros code H. injection H as <-. split; [reflexivity|].
      exists arg. now split.
    + intros _. now left.
Qed.

Lemma vers_loop_no_envs (run : list str -> str -> nat -> dict -> M bool)
    (script : list str) (rust_vers : list str) (matrix_includes : list row) :
  forall results w,
    vers_loop run script rust_vers [] matrix_includes results w
    = (Ok results, w, []).
Proof.
  induction rust_vers as [|v rust_vers IH]; intros results w; [reflexivity|].
  cbn [vers_loop envs_loop]. rewrite bind_ret_l. cbn [snd]. apply IH.
Qed.

(** C10. When the key [env] of the configuration is present and bound
    to an empty list, the list of environment strings is empty, no run
    specification exists for any version, and [main] starts no run and
    no child process: it returns the empty results list (or stops on
    its arguments). The single empty environment string is only used
    when the key is absent; then every version has at least one run
    specification. *)
Theorem empty_env_list_gives_no_runs (travis : config) (args : list str)
    (w : World) :
  (cfg_env travis = Some [] ->
   env_strings_of travis = []
   /\ (forall v,
         spec_expand v (env_strings_of travis) (matrix_includes_of travis) = [])
   /\ (forall rust_vers results w',
         vers_loop run_script (translate_script (cfg_script travis)) rust_vers
           (env_strings_of travis) (matrix_includes_of travis) results w'
         = (Ok results, w', []))
   /\ (forall results, outcome (main travis args w) = Ok results -> results = [])
   /\ (forall e, outcome (main travis args w) = Raise e -> e = SystemExit 1)
   /\ run_starts (trace (main travis args w)) = []
   /\ sh_events (trace (main travis args w)) = [])
  /\ (cfg_env travis = None ->
      env_strings_of travis = [[]]
      /\ forall v,
           spec_expand v (env_strings_of travis) (matrix_includes_of travis)
           <> []).
Proof.
  split.
  - intros H. unfold env_strings_of. rewrite H.
    split; [reflexivity|]. split; [reflexivity|].
    split; [intros; apply vers_loop_no_envs|].
    rewrite main_unfold. unfold env_strings_of. rewrite H.
    destruct (args_loop_cases (cfg_rust travis) args [] [] w)
      as [(sel & ->)|(arg & Harg & ->)]; cbv zeta.
    + rewrite vers_loop_no_envs. unfold outcome, trace. cbn [fst snd app].
      split; [intros results E; now injection E as <-|].
      split; [intros e E; discriminate E|]. now split.
    + unfold outcome, trace. cbn [fst snd].
      split; [intros results E; discriminate E|].
      split; [intros e E; now injection E as <-|]. now split.
  - intros H. unfold env_strings_of. rewrite H. split; [reflexivity|].
    intros v. unfold spec_expand. rewrite spec_envs_cons. unfold row_envs.
    cbn [filter row_applies synthetic_row row_rust List.map app numbered].
    discriminate.
Qed.

(** ** The behaviour that differs from the specification *)

Lemma sub_pieces_skip_raise (repl : groups -> result str) (a : str)
    (g : groups) (rest : list piece) (e : exn) :
  repl g = Raise e ->
  sub_pieces repl (List.map Skipped a ++ Match g :: rest) = Raise e.
Proof.
  intros H. induction a as [|c a IH]; cbn [List.map app sub_pieces].
  - now rewrite H.
  - now rewrite IH.
Qed.

Lemma substitute_unset (cmd_env : dict) :
  dict_get (lit "UNSET") cmd_env = None ->
  substitute cmd_env (lit "echo $UNSET") = Raise (KeyError (Some (lit "UNSET"))).
Proof.
  intros H. unfold substitute, re_sub.
  change (scan_all SUBST_RE (lit "echo $UNSET"))
    with (List.map Skipped (lit "echo ") ++ [Match [(1, lit "UNSET")]]).
  apply sub_pieces_skip_raise. unfold sub_env.
  change (py_or (group 1 [(1, lit "UNSET")]) (group 2 [(1, lit "UNSET")]))
    with (Some (lit "UNSET")).
  cbv beta iota. now rewrite H.
Qed.

(** C1. A name in braces that is not followed by a word character is
    not replaced: the word boundary at the end of the pattern of line
    128 does not hold after the closing brace, so [echo ${X}] is left
    as it is whatever the environment, where the specification gives
    [echo hello world] for [X] bound to [hello world]. The form without
    braces is replaced, and so is the form in braces before a word
    character. *)
Theorem braces_reference_not_substituted (cmd_env : dict) :
  substitute cmd_env (lit "echo ${X}") = Ok (lit "echo ${X}")
  /\ substitute [(lit "X", lit "hello world")] (lit "echo ${X}")
     = Ok (lit "echo ${X}")
  /\ substitute [(lit "X", lit "hello world")] (lit "echo $X")
     = Ok (lit "echo hello world")
  /\ substitute [(lit "X", lit "hello world")] (lit "echo ${X}s")
     = Ok (lit "echo hello worlds").
Proof. repeat split; reflexivity. Qed.

(** C5. A reference in braces to a name that is absent from the
    effective environment raises nothing when no word character
    follows it: the step [echo ${UNSET}] is left as it is and its
    command is run with the text [${UNSET}] in it. The same name
    without braces raises the [KeyError]. *)
Theorem undefined_braces_reference_is_run (rust_ver : str) (seq_id : nat)
    (env : dict) (w : World) :
  let cmd_env := effective_env rust_ver seq_id env in
  let out := run_script [lit "echo ${UNSET}"] rust_ver seq_id env w in
  substitute cmd_env (lit "echo ${UNSET}") = Ok (lit "echo ${UNSET}")
  /\ sh_events (trace out)
     = [(step_command rust_ver (lit "echo ${UNSET}"), cmd_env,
         fst (run_shell (step_command rust_ver (lit "echo ${UNSET}")) cmd_env w))]
  /\ outcome out
     = Ok (fst (run_shell (step_command rust_ver (lit "echo ${UNSET}")) cmd_env w))
  /\ (dict_get (lit "UNSET") cmd_env = None ->
      substitute cmd_env (lit "echo $UNSET") = Raise (KeyError (Some (lit "UNSET")))).
Proof.
  cbv zeta.
  assert (S : substitute (effective_env rust_ver seq_id env) (lit "echo ${UNSET}")
              = Ok (lit "echo ${UNSET}")) by reflexivity.
  split; [exact S|].
  destruct (run_script_observed [lit "echo ${UNSET}"] rust_ver seq_id env w)
    as (-> & -> & _).
  rewrite run_steps_cons, S.
  destruct (run_shell _ (effective_env rust_ver seq_id env) w) as [[|] w1];
    cbn [fst run_steps]; unfold ret, outcome, trace; cbn [fst snd sh_events];
    (split; [reflexivity|]); (split; [reflexivity|]);
    apply substitute_unset.
Qed.

(** A [KeyError] of the substitution of a step ends the run before the
    command of the step is run, and ends the loops over the runs. *)
Lemma key_error_ends_run (script : list str) (cmd : str) (rest : list str)
    (rust_ver : str) (seq_id : nat) (env : dict) (w : World) (e : exn) :
  substitute (effective_env rust_ver seq_id env) cmd = Raise e ->
  run_script (cmd :: rest) rust_ver seq_id env w
  = (Raise e, w, run_header rust_ver seq_id env).
Proof.
  intros H. rewrite run_script_steps, run_steps_cons, H. now rewrite app_nil_r.
Qed.

Lemma key_error_ends_matrix (script : list str) (sp : run_spec)
    (specs : list run_spec) (results : list run_result) (w w1 : World)
    (t1 : list event) (e : exn) :
  run_script script (rs_version sp) (rs_index sp) (rs_env sp) w = (Raise e, w1, t1) ->
  exec_specs run_script script (sp :: specs) results w = (Raise e, w1, t1).
Proof. intros H. cbn [exec_specs]. unfold bind. now rewrite H. Qed.

(** Without a repeated include the loop over the arguments accepts
    every list of recognized tokens: the include list is the default
    versions among the arguments, in their order, and the exclude set
    the other arguments without their minus sign. *)
Lemma args_loop_without_repeats (vers args : list str) (w : World) :
  forall include_vers exclude_vers,
    forallb (recognized vers) args = true ->
    NoDup (include_vers ++ filter (fun a => mem a vers) args) ->
    args_loop vers args include_vers exclude_vers w
    = (Ok (include_vers ++ filter (fun a => mem a vers) args,
           rev (List.map (@tl char) (filter (fun a => negb (mem a vers)) args))
           ++ exclude_vers),
       w, []).
Proof.
  induction args as [|arg args IH]; intros inc exc Hrec Hnd;
    cbn [args_loop filter forallb] in *.
  - now rewrite app_nil_r.
  - apply andb_true_iff in Hrec as [Harg Hrec]. unfold recognized in Harg.
    destruct (mem arg vers) eqn:Ev; cbn [negb orb andb List.map rev] in *.
    + assert (Hfresh : mem arg inc = false).
      { destruct (mem arg inc) eqn:E; [|reflexivity].
        apply mem_In in E. apply NoDup_remove_2 in Hnd.
        exfalso. apply Hnd. apply in_or_app. now left. }
      rewrite Hfresh. cbn [negb].
      rewrite IH; [|exact Hrec|now rewrite <- app_assoc].
      now rewrite <- app_assoc.
    + rewrite Harg. rewrite IH by assumption.
      now rewrite <- app_assoc.
Qed.

(** C4. An argument that repeats an included version is not ignored:
    the test of line 41 fails for it, the one of line 43 as well, and
    line 47 ends the program. With the default versions [a], [b], [c]
    the arguments [b b] give [sys.exit(1)], where the specification
    gives the run list [b]. Without a repeated argument the two
    examples of the specification hold: [b -a] gives [b], and [-a]
    gives [b], [c]. *)
Theorem repeated_include_is_rejected (w : World) :
  args_loop [lit "a"; lit "b"; lit "c"] [lit "b"; lit "b"] [] [] w
  = (Raise (SystemExit 1), w, [Say (MsgUnknownArgument (lit "b"))])
  /\ args_loop [lit "a"; lit "b"; lit "c"] [lit "b"; lit "-a"] [] [] w
     = (Ok ([lit "b"], [lit "a"]), w, [])
  /\ resolve_vers [lit "a"; lit "b"; lit "c"] [lit "b"] [lit "a"] = [lit "b"]
  /\ args_loop [lit "a"; lit "b"; lit "c"] [lit "-a"] [] [] w
     = (Ok ([], [lit "a"]), w, [])
  /\ resolve_vers [lit "a"; lit "b"; lit "c"] [] [lit "a"] = [lit "b"; lit "c"].
Proof. repeat split; reflexivity. Qed.

(** * Further properties of the code *)

(** ** Substitution *)

Lemma subst_needs_dollar (prev : option char) (s : str) :
  match s with [] => True | c :: _ => N.eqb c 36 = false end ->
  match_here SUBST_RE prev s = None.
Proof.
  unfold match_here, SUBST_RE. rewrite rmatch_Cat, rmatch_Chr.
  destruct s as [|c s']; [reflexivity|]. now intros ->.
Qed.

(** The scan steps over a text without dollar sign. *)
Lemma scan_skips (fuel : nat) :
  forall prev pre rest,
    no_dollar pre = true -> length (pre ++ rest) < fuel ->
    scan fuel SUBST_RE prev (pre ++ rest)
    = List.map Skipped pre
      ++ scan (fuel - length pre) SUBST_RE (last_char prev pre) rest.
Proof.
  induction fuel as [|fuel IH]; intros prev pre rest Hpre Hlen; [lia|].
  destruct pre as [|c pre].
  - cbn [app List.map length last_char]. now rewrite Nat.sub_0_r.
  - cbn [no_dollar forallb] in Hpre. apply andb_true_iff in Hpre as [Hc Hpre].
    apply negb_true_iff in Hc. cbn [app scan].
    rewrite (subst_needs_dollar prev (c :: pre ++ rest) Hc).
    cbn [app length] in Hlen. rewrite (IH (Some c) pre rest Hpre) by lia.
    reflexivity.
Qed.

Lemma scan_skips_all (fuel : nat) (prev : option char) (s : str) :
  no_dollar s = true -> length s < fuel ->
  scan fuel SUBST_RE prev s = List.map Skipped s.
Proof.
  intros Hs Hlen. rewrite <- (app_nil_r s) at 1.
  rewrite scan_skips by (rewrite ?app_nil_r; assumption).
  destruct (fuel - length s) as [|f] eqn:E; [lia|].
  cbn [scan]. rewrite subst_needs_dollar by exact I. now rewrite app_nil_r.
Qed.

Lemma sub_pieces_skipped (repl : groups -> result str) (s : str) :
  sub_pieces repl (List.map Skipped s) = Ok s.
Proof.
  induction s as [|c s IH]; cbn [List.map sub_pieces]; [reflexivity|].
  now rewrite IH.
Qed.

Lemma sub_pieces_one_match (repl : groups -> result str) (pre post : str)
    (g : groups) :
  sub_pieces repl (List.map Skipped pre ++ Match g :: List.map Skipped post)
  = match repl g with
    | Ok v => Ok (pre ++ v ++ post)
    | Raise e => Raise e
    end.
Proof.
  induction pre as [|c pre IH]; cbn [List.map app sub_pieces].
  - rewrite sub_pieces_skipped. reflexivity.
  - rewrite IH. now destruct (repl g).
Qed.

(** X1. A step without dollar sign is left as it is by the
    substitution of line 128, whatever the environment, and nothing is
    raised. *)
Theorem substitute_without_dollar (cmd_env : dict) (cmd : str) :
  no_dollar cmd = true -> substitute cmd_env cmd = Ok cmd.
Proof.
  intros H. unfold substitute, re_sub, scan_all.
  rewrite scan_skips_all by (try assumption; lia).
  apply sub_pieces_skipped.
Qed.


Lemma rep_after_class (cls : char -> bool)
    (k : option char -> str -> option matched) :
  (forall c' c t, cls c' = true -> cls c = true -> k (Some c') (c :: t) = None) ->
  forall s c0,
    cls c0 = true ->
    rep cls (Some c0) s k
    = k (last_char (Some c0) (take_while cls s)) (drop_while cls s).
Proof.
  intros Hk s. induction s as [|c s IH]; intros c0 H0; cbn; [reflexivity|].
  destruct (cls c) eqn:E; cbn; [|reflexivity].
  rewrite (IH c E).
  destruct (k (last_char (Some c) (take_while cls s)) (drop_while cls s));
    [reflexivity|].
  now apply Hk.
Qed.

Lemma last_char_class (cls : char -> bool) (l : str) :
  forall c0, cls c0 = true -> forallb cls l = true ->
             exists c, last_char (Some c0) l = Some c /\ cls c = true.
Proof.
  induction l as [|x l IH]; intros c0 H0 Hl; cbn in *.
  - now exists c0.
  - apply andb_true_iff in Hl as [Hx Hl]. now apply IH.
Qed.

Lemma name_char_is_word (c : char) : is_name_char c = true -> is_word c = true.
Proof. unfold is_word. now intros ->. Qed.

Lemma not_word_not_name (s : str) :
  word_here is_word s = false ->
  match s with [] => True | c :: _ => is_name_char c = false end.
Proof.
  destruct s as [|c s]; [trivial|]. cbn. unfold is_word.
  now destruct (is_name_char c).
Qed.

Lemma scan_at_match (r : regex) (fuel : nat) (prev p : option char)
    (s t : str) (g : groups) :
  match_here r prev s = Some (g, p, t) ->
  length t < length s -> length s < fuel ->
  scan fuel r prev s = Match g :: scan (fuel - 1) r p t.
Proof.
  intros Hm Ht Hs. destruct fuel as [|fuel]; [lia|].
  cbn [scan]. rewrite Hm. apply Nat.ltb_lt in Ht. rewrite Ht.
  now rewrite Nat.sub_1_r.
Qed.

(** The pattern of line 128 at a dollar sign before a name. *)
Lemma match_dollar_name (prev : option char) (name post : str) :
  is_name name = true -> word_here is_word post = false ->
  exists p,
    match_here SUBST_RE prev (36%N :: name ++ post)
    = Some ([(1, name)], p, post).
Proof.
  intros Hname Hpost. unfold match_here, SUBST_RE.
  rewrite rmatch_Cat, rmatch_Chr. cbn [N.eqb Pos.eqb].
  rewrite rmatch_Cat, rmatch_Alt, rmatch_Grp, rmatch_Plus.
  destruct name as [|x name]; [discriminate|].
  unfold is_name in Hname. cbn [forallb] in Hname.
  apply andb_true_iff in Hname as [Hx Hname].
  pose proof (not_word_not_name post Hpost) as Hstop.
  destruct (take_while_app_stop is_name_char name post Hname Hstop) as [T D].
  cbn [app]. rewrite Hx. rewrite rep_after_class.
  - rewrite T, D. rewrite rmatch_WordBoundary.
    destruct (last_char_class is_name_char name x Hx Hname) as (c & -> & Hc).
    cbn [word_before]. rewrite (name_char_is_word c Hc), Hpost. cbn [xorb].
    exists (Some c). do 3 f_equal.
    pose proof (firstn_take_while is_name_char (x :: name ++ post)) as F.
    cbn [take_while drop_while] in F. rewrite Hx, T, D in F.
    now rewrite F.
  - intros c' c t Hc' Hc. rewrite rmatch_WordBoundary. cbn [word_before word_here].
    now rewrite (name_char_is_word c' Hc'), (name_char_is_word c Hc).
  - exact Hx.
Qed.

Lemma sub_env_group (cmd_env : dict) (n : nat) (name : str) :
  (n = 1 \/ n = 2) -> is_name name = true ->
  sub_env cmd_env [(n, name)]
  = match dict_get name cmd_env with
    | Some v => Ok v
    | None => Raise (KeyError (Some name))
    end.
Proof.
  intros Hn Hname. destruct name as [|x name]; [discriminate|].
  destruct Hn as [-> | ->]; reflexivity.
Qed.

Lemma lookup_or_raise_sub_env (cmd_env : dict) (n : nat) (name pre post : str) :
  (n = 1 \/ n = 2) -> is_name name = true ->
  match sub_env cmd_env [(n, name)] with
  | Ok v => Ok (pre ++ v ++ post)
  | Raise e => Raise e
  end = lookup_or_raise cmd_env name pre post.
Proof.
  intros Hn Hname. rewrite (sub_env_group cmd_env n name Hn Hname).
  unfold lookup_or_raise. now destruct (dict_get name cmd_env).
Qed.

(** X2. In a step with one dollar sign, followed by a name and then
    by the end of the step or by a character that is not a word
    character, the reference is replaced by the value of the name in
    the effective environment and the rest of the step is kept; when
    the name is absent the substitution raises the [KeyError] of that
    name. *)
Theorem substitute_dollar_name (cmd_env : dict) (pre name post : str) :
  no_dollar pre = true -> is_name name = true ->
  word_here is_word post = false -> no_dollar post = true ->
  substitute cmd_env (pre ++ 36%N :: name ++ post)
  = lookup_or_raise cmd_env name pre post.
Proof.
  intros Hpre Hname Hstop Hpost. unfold substitute, re_sub, scan_all.
  rewrite scan_skips by (try assumption; lia).
  destruct (match_dollar_name (last_char None pre) name post Hname Hstop)
    as (p & Hm).
  rewrite length_app. cbn [length]. rewrite length_app.
  rewrite (scan_at_match SUBST_RE _ _ p _ post [(1, name)] Hm)
    by (cbn [length]; rewrite ?length_app; lia).
  rewrite scan_skips_all by (try assumption; lia).
  rewrite sub_pieces_one_match.
  apply lookup_or_raise_sub_env; [now left|exact Hname].
Qed.

Lemma name_no_dollar (name : str) :
  forallb is_name_char name = true -> no_dollar name = true.
Proof.
  induction name as [|c name IH]; [reflexivity|].
  cbn [forallb no_dollar]. intros H.
  apply andb_true_iff in H as [Hc H]. apply andb_true_iff. split.
  - apply name_char_bounds in Hc. apply negb_true_iff. apply N.eqb_neq. lia.
  - now apply IH.
Qed.

Lemma no_dollar_app (a b : str) :
  no_dollar (a ++ b) = no_dollar a && no_dollar b.
Proof. apply forallb_app. Qed.

(** The pattern of line 128 at a dollar sign before a name in braces:
    it matches when a word character follows the closing brace, and
    only then. *)
Lemma match_dollar_braces (prev : option char) (name post : str) :
  is_name name = true ->
  match_here SUBST_RE prev (36%N :: 123%N :: name ++ 125%N :: post)
  = if word_here is_word post then Some ([(2, name)], Some 125%N, post)
    else None.
Proof.
  intros Hname. unfold match_here, SUBST_RE.
  rewrite rmatch_Cat, rmatch_Chr. cbn [N.eqb Pos.eqb].
  rewrite rmatch_Cat, rmatch_Alt.
  rewrite rmatch_Grp, rmatch_Plus. cbn [is_name_char in_range N.leb N.compare
    Pos.compare Pos.compare_cont N.eqb Pos.eqb orb andb].
  rewrite rmatch_Cat, rmatch_Chr. cbn [N.eqb Pos.eqb].
  rewrite rmatch_Cat, rmatch_Grp_Plus.
  - assert (Hall : forallb is_name_char name = true)
      by (unfold is_name in Hname; destruct name; [discriminate|exact Hname]).
    destruct (take_while_app_stop is_name_char name (125%N :: post) Hall)
      as [T D]; [reflexivity|].
    rewrite T, D. destruct name as [|x name]; [discriminate|].
    rewrite rmatch_Chr. cbn [N.eqb Pos.eqb].
    rewrite rmatch_WordBoundary.
    now destruct (word_here is_word post).
  - intros p c t g' Hc. rewrite rmatch_Chr.
    apply name_char_bounds in Hc.
    destruct (N.eqb_spec c 125); [lia|reflexivity].
Qed.

(** X3. In a step with one dollar sign, followed by a name in braces,
    the reference is replaced (or the [KeyError] of the name raised)
    when a word character follows the closing brace; when the step
    ends there or another character follows, the step is left as it
    is and nothing is raised, whether the name is bound or not. *)
Theorem substitute_dollar_braces (cmd_env : dict) (pre name post : str) :
  no_dollar pre = true -> is_name name = true -> no_dollar post = true ->
  substitute cmd_env (pre ++ 36%N :: 123%N :: name ++ 125%N :: post)
  = if word_here is_word post then lookup_or_raise cmd_env name pre post
    else Ok (pre ++ 36%N :: 123%N :: name ++ 125%N :: post).
Proof.
  intros Hpre Hname Hpost. unfold substitute, re_sub, scan_all.
  rewrite scan_skips by (try assumption; lia).
  pose proof (match_dollar_braces (last_char None pre) name post Hname) as Hm.
  assert (Hall : forallb is_name_char name = true)
    by (unfold is_name in Hname; destruct name; [discriminate|exact Hname]).
  rewrite length_app. cbn [length]. rewrite length_app. cbn [length].
  destruct (word_here is_word post).
  - rewrite (scan_at_match SUBST_RE _ _ (Some 125%N) _ post [(2, name)] Hm)
      by (cbn [length]; rewrite ?length_app; cbn [length]; lia).
    rewrite scan_skips_all by (try assumption; lia).
    rewrite sub_pieces_one_match.
    apply lookup_or_raise_sub_env; [now right|exact Hname].
  - match goal with
    | |- context [scan ?f _ _ _] => destruct f as [|fuel] eqn:E; [lia|]
    end.
    cbn [scan]. rewrite Hm.
    rewrite scan_skips_all.
    + change (Skipped 36%N :: List.map Skipped (123%N :: name ++ 125%N :: post))
        with (List.map Skipped (36%N :: 123%N :: name ++ 125%N :: post)).
      rewrite <- map_app. apply sub_pieces_skipped.
    + change (123%N :: name ++ 125%N :: post)
        with ([123%N] ++ name ++ [125%N] ++ post).
      rewrite !no_dollar_app, (name_no_dollar name Hall), Hpost. reflexivity.
    + cbn [length]. rewrite length_app. cbn [length]. lia.
Qed.


(** ** parse_env_vars *)

Lemma scan_env_pairs (fuel : nat) :
  forall prev s,
    List.map (fun m => (group 1 m, py_or (group 2 m) (group 3 m)))
      (matches_of (scan fuel ENV_VAR_RE prev s))
    = List.map (fun kv => (Some (fst kv), Some (snd kv))) (env_tokens fuel s).
Proof.
  induction fuel as [|fuel IH]; intros prev s; [reflexivity|].
  cbn [scan env_tokens].
  destruct (env_match s) as [[[k v] rest]|] eqn:E.
  - destruct (match_here_env_some prev _ _ _ _ E) as (g & p & Hm & Hk & Hv).
    rewrite Hm. apply env_match_shorter in E. apply Nat.ltb_lt in E.
    rewrite E. cbn [matches_of List.map fst snd]. now rewrite Hk, Hv, IH.
  - rewrite (match_here_env_none prev _ E).
    destruct s as [|c s']; [reflexivity|]. cbn [matches_of]. apply IH.
Qed.

Lemma env_assignments_tokens (s : str) :
  env_assignments s
  = List.map (fun kv => (Some (fst kv), Some (snd kv))) (tokens (strip s)).
Proof. unfold env_assignments, finditer, scan_all, tokens. apply scan_env_pairs. Qed.

Lemma last_value_tokens (k : str) (l : list (str * str)) :
  last_value k (List.map (fun kv => (Some (fst kv), Some (snd kv))) l)
  = dict_get k (rev l).
Proof.
  unfold last_value. rewrite <- map_rev.
  induction (rev l) as [|[k' v'] r IH]; cbn [List.map find fst snd dict_get];
    [reflexivity|].
  destruct (str_eqb k k'); [reflexivity|exact IH].
Qed.

(** X4. In the dictionary of [parse_env_vars] no key occurs twice and
    every key is a non-empty run of the characters [A-Za-z0-9_]; a
    value that contains white space was written between double quotes
    and contains no double quote. *)
Theorem parse_env_vars_shape (s : str) :
  NoDup (List.map fst (parse_env_vars s))
  /\ forall k v,
       In (k, v) (parse_env_vars s) ->
       is_name k = true /\ (has_space v = true -> no_dquote v = true).
Proof.
  split; [apply parse_env_vars_NoDup|].
  intros k v H. pose proof (parse_env_vars_entry_ok s) as E.
  rewrite forallb_forall in E. apply E in H. unfold entry_ok in H.
  cbn [fst snd] in H. apply andb_true_iff in H as [Hk Hv].
  split; [exact Hk|]. intros Hs. rewrite Hs in Hv. exact Hv.
Qed.

(** X5. A later assignment to a name replaces an earlier one: the
    value of a key in the dictionary of [parse_env_vars] is the value
    of the last match of line 102 with that name, and a key without a
    match is absent. *)
Theorem parse_env_vars_last_wins (s k : str) :
  dict_get k (parse_env_vars s) = last_value k (env_assignments s).
Proof.
  rewrite parse_env_vars_tokens, env_assignments_tokens, last_value_tokens.
  rewrite dict_get_update. cbn [dict_get].
  now destruct (dict_get k (rev (tokens (strip s)))).
Qed.

Lemma forallb_lstrip (P : char -> bool) (s : str) :
  forallb P s = true -> forallb P (lstrip s) = true.
Proof.
  induction s as [|c s IH]; [trivial|]. cbn [lstrip].
  destruct (is_space c); [|trivial].
  cbn [forallb]. intros H. apply andb_true_iff in H as [_ H]. now apply IH.
Qed.

Lemma forallb_rev (P : char -> bool) (s : str) :
  forallb P s = true -> forallb P (rev s) = true.
Proof.
  rewrite !forallb_forall. intros H x Hx. apply H. now apply in_rev.
Qed.

Lemma forallb_strip (P : char -> bool) (s : str) :
  forallb P s = true -> forallb P (strip s) = true.
Proof.
  intros H. unfold strip.
  now apply forallb_rev, forallb_lstrip, forallb_rev, forallb_lstrip.
Qed.

Lemma tokens_need_equals (s : str) : no_equals s = true -> tokens s = [].
Proof.
  induction s as [|s k v rest E IH|c s E IH] using tokens_ind; intros H.
  - reflexivity.
  - destruct (env_match_cases _ _ _ _ E) as (s1 & _ & -> & _).
    unfold no_equals in H. rewrite forallb_app in H.
    apply andb_true_iff in H as [_ H]. discriminate H.
  - rewrite (tokens_skip _ _ E). apply IH.
    unfold no_equals in *. cbn [forallb] in H.
    now apply andb_true_iff in H as [_ H].
Qed.

(** X6. A string without an equals sign, such as the empty string or
    a string of white space, gives the empty dictionary: what is not
    a [NAME=value] token is passed over without an error. *)
Theorem parse_env_vars_without_equals (s : str) :
  no_equals s = true -> parse_env_vars s = [].
Proof.
  intros H. rewrite parse_env_vars_tokens, tokens_need_equals; [reflexivity|].
  now apply forallb_strip.
Qed.


(** ** The effective environment *)

(** X7. In the effective environment of a run the variables of the
    run win over the build directory variable, which wins over the
    inherited environment; [CARGO_TARGET_DIR] is always bound. *)
Theorem effective_env_precedence (rust_ver : str) (seq_id : nat) (env : dict)
    (k : str) :
  (exists v,
     dict_get (lit "CARGO_TARGET_DIR") (effective_env rust_ver seq_id env)
     = Some v)
  /\ (NoDup (List.map fst env) ->
      dict_get k (effective_env rust_ver seq_id env)
      = match dict_get k env with
        | Some v => Some v
        | None =>
            if str_eqb k (lit "CARGO_TARGET_DIR") then
              Some (os_path_join (lit "target")
                      (rust_ver ++ lit "-" ++ fmt_d seq_id))
            else dict_get k os_environ
        end).
Proof.
  unfold effective_env. split.
  - rewrite dict_get_update, dict_get_set, str_eqb_refl.
    destruct (dict_get _ (rev env)); now eexists.
  - intros H. rewrite dict_get_update, (dict_get_rev _ _ H), dict_get_set.
    reflexivity.
Qed.

(** ** The log file of a run *)

Lemma filter_variable_lines (items : dict) :
  filter opens_or_closes (variable_lines items) = [].
Proof. induction items as [|[k v] items IH]; [reflexivity|exact IH]. Qed.

Lemma filter_run_steps (rust_ver : str) (cmd_env : dict) (script : list str) :
  forall w,
    filter opens_or_closes (trace (run_steps rust_ver cmd_env script w)) = [].
Proof.
  induction script as [|cmd script IH]; intros w; [reflexivity|].
  rewrite run_steps_cons.
  destruct (substitute cmd_env cmd) as [cmd1|e]; [|reflexivity].
  destruct (run_shell (step_command rust_ver cmd1) cmd_env w) as [[|] w1];
    [|reflexivity].
  specialize (IH w1).
  destruct (run_steps rust_ver cmd_env script w1) as [[r w2] t2].
  exact IH.
Qed.

(** X8. A run opens its log file before anything else and opens no
    other; when [run_script] returns, after a failed step as well, the
    file has been closed once, as the last thing the run does; when
    the substitution of a step raises, the file is not closed. *)
Theorem log_file_discipline (script : list str) (rust_ver : str)
    (seq_id : nat) (env : dict) (w : World) :
  let out := run_script script rust_ver seq_id env w in
  let log_path :=
    os_path_join LOG_DIR (rust_ver ++ lit "-" ++ fmt_d seq_id ++ lit ".log") in
  hd_error (trace out) = Some (LogOpen log_path)
  /\ filter opens_or_closes (trace out)
     = LogOpen log_path
       :: match outcome out with
          | Ok _ => [LogClose]
          | Raise _ => []
          end
  /\ (forall success,
        outcome out = Ok success -> last (trace out) LogFlush = LogClose).
Proof.
  cbv zeta. rewrite run_script_steps.
  pose proof (filter_run_steps rust_ver (effective_env rust_ver seq_id env)
                script w) as F.
  destruct (run_steps rust_ver (effective_env rust_ver seq_id env) script w)
    as [[[ok|e] w'] t]; unfold outcome, trace in *; cbn [fst snd] in *;
    unfold run_header; cbn [app hd_error filter opens_or_closes];
    rewrite ?filter_app, filter_variable_lines, F; cbn [app filter opens_or_closes].
  - split; [reflexivity|]. split; [reflexivity|]. intros success _.
    rewrite !app_comm_cons, app_assoc.
    change [Say (MsgOutcome ok); LogClose]
      with ([Say (MsgOutcome ok)] ++ [LogClose]).
    rewrite app_assoc. apply last_last.
  - split; [reflexivity|]. split; [reflexivity|]. intros b H. discriminate H.
Qed.

(** ** The names of the log file and of the build directory *)





(** ** Scripts without variable references *)

Lemma run_steps_without_dollar (rust_ver : str) (cmd_env : dict)
    (script : list str) (w : World) :
  forallb no_dollar script = true ->
  exists success, outcome (run_steps rust_ver cmd_env script w) = Ok success.
Proof.
  intros H.
  destruct (run_steps_spec rust_ver cmd_env script w) as ((j & Hj) & _).
  destruct Hj as [(E & _)|[(E & _)|(c & key & _ & Hn & Hs & _)]];
    [eexists; exact E|eexists; exact E|].
  apply nth_error_In in Hn. rewrite forallb_forall in H.
  specialize (H c Hn). unfold substitute, re_sub, scan_all in Hs.
  rewrite scan_skips_all in Hs by (try assumption; lia).
  rewrite sub_pieces_skipped in Hs. discriminate Hs.
Qed.

Lemma exec_specs_without_dollar (script : list str) (specs : list run_spec) :
  forallb no_dollar script = true ->
  forall results w,
    exists res, outcome (exec_specs run_script script specs results w) = Ok res.
Proof.
  intros H. induction specs as [|sp specs IH]; intros results w.
  - now eexists.
  - cbn [exec_specs]. unfold bind.
    destruct (run_script_observed script (rs_version sp) (rs_index sp)
                (rs_env sp) w) as (Ho & _).
    destruct (run_steps_without_dollar (rs_version sp)
                (effective_env (rs_version sp) (rs_index sp) (rs_env sp))
                script w H) as (ok & Hok).
    rewrite Hok in Ho.
    destruct (run_script script (rs_version sp) (rs_index sp) (rs_env sp) w)
      as [[r w1] t1]. unfold outcome in Ho. cbn [fst] in Ho. subst r.
    destruct (IH (results ++ [(rs_version sp, rs_index sp, ok)]) w1)
      as (res & Hres).
    destruct (exec_specs run_script script specs _ w1) as [[r2 w2] t2].
    exists res. exact Hres.
Qed.

Lemma split_and_two (a b : char) (s cur : str) :
  split_and (a :: b :: s) cur
  = if N.eqb a 38 && N.eqb b 38 then rev cur :: split_and s []
    else split_and (b :: s) (a :: cur).
Proof. reflexivity. Qed.

Lemma split_and_forallb (P : char -> bool) (n : nat) :
  forall s cur,
    length s <= n -> forallb P s = true -> forallb P cur = true ->
    forallb (forallb P) (split_and s cur) = true.
Proof.
  induction n as [|n IH]; intros s cur Hn Hs Hcur.
  - destruct s; [|cbn in Hn; lia]. cbn. rewrite forallb_rev by assumption.
    reflexivity.
  - destruct s as [|a [|b s']].
    + cbn. now rewrite forallb_rev.
    + cbn [split_and forallb]. rewrite forallb_rev; [reflexivity|].
      cbn [forallb] in *. apply andb_true_iff in Hs as [Ha _].
      now rewrite Ha, Hcur.
    + rewrite split_and_two. cbn [forallb length] in *.
      apply andb_true_iff in Hs as [Ha Hs]. apply andb_true_iff in Hs as [Hb Hs].
      destruct (N.eqb a 38 && N.eqb b 38).
      * cbn [forallb]. rewrite forallb_rev by assumption.
        rewrite IH; [reflexivity|lia|assumption|reflexivity].
      * apply IH; [cbn [length]; lia| |].
        -- cbn [forallb]. now rewrite Hb, Hs.
        -- cbn [forallb]. now rewrite Ha, Hcur.
Qed.

Lemma translate_script_forallb (P : char -> bool) (script : str) :
  forallb P script = true -> forallb (forallb P) (translate_script script) = true.
Proof.
  intros H. unfold translate_script.
  pose proof (split_and_forallb P (length script) script [] (le_n _) H eq_refl) as S.
  rewrite forallb_forall in S. apply forallb_forall. intros x Hx.
  apply in_map_iff in Hx as (y & <- & Hy). apply forallb_strip. now apply S.
Qed.

(** X10. When the script of the configuration has no dollar sign, no
    run raises: [main] returns the results of all the runs, or stops
    on its arguments before the first run; it never ends with a
    [KeyError]. *)
Theorem script_without_dollar_never_raises (travis : config)
    (args : list str) (w : World) :
  no_dollar (cfg_script travis) = true ->
  (exists results, outcome (main travis args w) = Ok results)
  \/ outcome (main travis args w) = Raise (SystemExit 1).
Proof.
  intros H. rewrite main_unfold.
  destruct (args_loop_cases (cfg_rust travis) args [] [] w)
    as [(sel & ->)|(arg & _ & ->)]; [|now right].
  left. cbv zeta. rewrite vers_loop_exec.
  destruct (exec_specs_without_dollar (translate_script (cfg_script travis))
              (flat_map (fun v => spec_expand v (env_strings_of travis)
                                    (matrix_includes_of travis))
                 (resolve_vers (cfg_rust travis) (fst sel) (snd sel)))
              (translate_script_forallb _ _ H) [] w) as (res & Hres).
  destruct (exec_specs run_script _ _ [] w) as [[r w2] t2].
  unfold outcome in *. cbn [fst] in *. subst r. now exists res.
Qed.


(** ** The selection of the versions *)

Lemma args_loop_selected (vers args : list str) :
  forall include_vers exclude_vers w sel w' t,
    args_loop vers args include_vers exclude_vers w = (Ok sel, w', t) ->
    incl include_vers vers -> NoDup include_vers ->
    incl (fst sel) vers
    /\ NoDup (fst sel)
    /\ incl exclude_vers (snd sel)
    /\ (forall a, In a args -> mem a vers = false -> In (tl a) (snd sel)).
Proof.
  induction args as [|arg args IH]; intros inc exc w sel w' t; cbn [args_loop].
  - unfold ret. intros E Hi Hn. injection E as <- _ _. cbn [fst snd].
    repeat split; try assumption; [apply incl_refl|intros a []].
  - destruct (mem arg vers && negb (mem arg inc)) eqn:C1.
    + apply andb_true_iff in C1 as [Hv Hf]. apply negb_true_iff in Hf.
      intros E Hi Hn.
      destruct (IH (inc ++ [arg]) exc w sel w' t E) as (A & B & C & D).
      * apply incl_app; [exact Hi|]. intros x [<-|[]]. now apply mem_In.
      * apply NoDup_app; [exact Hn|repeat constructor; intros []|].
        intros x Hx [<-|[]]. apply mem_In in Hx. congruence.
      * repeat split; try assumption.
        intros a [<-|Ha] Hm; [congruence|now apply D].
    + destruct (startswith_minus arg && mem (tl arg) vers) eqn:C2.
      * intros E Hi Hn.
        destruct (IH inc (tl arg :: exc) w sel w' t E Hi Hn) as (A & B & C & D).
        repeat split; try assumption.
        -- intros x Hx. apply C. now right.
        -- intros a [<-|Ha] Hm; [apply C; now left|now apply D].
      * unfold bind, msg, emit, raise. discriminate.
Qed.

(** X11. When the loop over the arguments accepts them, every version
    of the run list is a default version, no version is in it twice
    (given that the default list has none twice, or that a version was
    included by an argument), and a version excluded by an argument is
    not in it, wherever that argument stands. *)
Theorem selected_versions (vers args : list str) (w w' : World)
    (sel : list str * list str) (t : list event) :
  args_loop vers args [] [] w = (Ok sel, w', t) ->
  incl (resolve_vers vers (fst sel) (snd sel)) vers
  /\ (NoDup vers \/ fst sel <> [] ->
      NoDup (resolve_vers vers (fst sel) (snd sel)))
  /\ (forall a,
        In a args -> mem a vers = false ->
        ~ In (tl a) (resolve_vers vers (fst sel) (snd sel))).
Proof.
  intros E.
  destruct (args_loop_selected vers args [] [] w sel w' t E)
    as (A & B & _ & D); [intros x []|constructor|].
  unfold resolve_vers. split; [|split].
  - intros x Hx. apply filter_In in Hx as [Hx _].
    destruct (fst sel); [exact Hx|now apply A].
  - intros H. apply NoDup_filter.
    destruct (fst sel) as [|v l]; [|exact B].
    destruct H as [H|H]; [exact H|now contradiction H].
  - intros a Ha Hm Hin. apply filter_In in Hin as [_ Hin].
    apply negb_true_iff in Hin. specialize (D a Ha Hm).
    apply mem_In in D. congruence.
Qed.

(** ** translate_script *)

Lemma split_and_not_nil (n : nat) :
  forall s cur, length s <= n -> split_and s cur <> [].
Proof.
  induction n as [|n IH]; intros s cur Hn.
  - destruct s; [discriminate|cbn in Hn; lia].
  - destruct s as [|a [|b s']]; try discriminate.
    rewrite split_and_two. destruct (N.eqb a 38 && N.eqb b 38); [discriminate|].
    apply IH. cbn [length] in *. lia.
Qed.

Lemma split_and_join (n : nat) :
  forall s cur, length s <= n -> join_and (split_and s cur) = rev cur ++ s.
Proof.
  induction n as [|n IH]; intros s cur Hn.
  - destruct s; [|cbn in Hn; lia]. cbn. now rewrite app_nil_r.
  - destruct s as [|a [|b s']].
    + cbn. now rewrite app_nil_r.
    + reflexivity.
    + rewrite split_and_two. cbn [length] in Hn.
      destruct (N.eqb a 38 && N.eqb b 38) eqn:E.
      * apply andb_true_iff in E as [Ea Eb].
        apply N.eqb_eq in Ea. apply N.eqb_eq in Eb. subst a b.
        pose proof (split_and_not_nil n s' [] ltac:(lia)) as Hne.
        pose proof (IH s' [] ltac:(lia)) as J. cbn [rev app] in J.
        cbn [join_and]. destruct (split_and s' []) as [|q qs]; [contradiction|].
        now rewrite J.
      * rewrite IH by (cbn [length]; lia). cbn [rev].
        now rewrite <- app_assoc.
Qed.

(** X12. Splitting the script of the configuration at the separator
    of line 161 loses nothing: the parts, before they are stripped,
    joined again with the separator are the script. *)
Theorem split_join_roundtrip (script : str) :
  join_and (split_and script []) = script.
Proof.
  pose proof (split_and_join (length script) script [] (le_n _)) as H.
  cbn [rev app] in H. exact H.
Qed.

Lemma head_nonspace_lstrip (s : str) : head_nonspace (lstrip s) = true.
Proof.
  induction s as [|c s IH]; [reflexivity|]. cbn [lstrip].
  destruct (is_space c) eqn:E; [exact IH|].
  cbn [head_nonspace]. unfold is_nonspace. now rewrite E.
Qed.

Lemma lstrip_suffix (s : str) : exists p, s = p ++ lstrip s.
Proof.
  induction s as [|c s (p & IH)]; [now exists []|]. cbn [lstrip].
  destruct (is_space c); [|now exists []].
  exists (c :: p). cbn [app]. now f_equal.
Qed.

(** [strip] gives a part of the text. *)
Lemma strip_inside (s : str) : exists p q, s = p ++ strip s ++ q.
Proof.
  unfold strip. destruct (lstrip_suffix s) as (p & Hp).
  destruct (lstrip_suffix (rev (lstrip s))) as (q & Hq).
  exists p, (rev q). rewrite <- rev_app_distr, <- Hq, rev_involutive.
  exact Hp.
Qed.

Lemma strip_ends (s : str) :
  head_nonspace (strip s) = true /\ head_nonspace (rev (strip s)) = true.
Proof.
  unfold strip. split.
  - pose proof (head_nonspace_lstrip s) as Hu.
    destruct (lstrip_suffix (rev (lstrip s))) as (p & Hq).
    apply (f_equal (@rev char)) in Hq.
    rewrite rev_involutive, rev_app_distr in Hq.
    destruct (rev (lstrip (rev (lstrip s)))) as [|c r]; [reflexivity|].
    rewrite Hq in Hu. exact Hu.
  - rewrite rev_involutive. apply head_nonspace_lstrip.
Qed.

Lemma has_and_and_app (a b : str) :
  has_and_and (a ++ b) = false -> has_and_and a = false /\ has_and_and b = false.
Proof.
  induction a as [|x a IH].
  - now split.
  - destruct a as [|y a'].
    + cbn [app]. destruct b as [|z b']; [now split|].
      cbn [has_and_and]. intros H. apply orb_false_iff in H as [_ H]. now split.
    + cbn [app has_and_and] in *. intros H.
      apply orb_false_iff in H as [H1 H2]. destruct (IH H2) as [Ha Hb].
      rewrite H1. split; [exact Ha|exact Hb].
Qed.

(** Adding a character at the end. *)
Lemma has_and_and_snoc (l : str) (a : char) :
  has_and_and (l ++ [a])
  = has_and_and l
    || (match rev l with c :: _ => N.eqb c 38 | [] => false end && N.eqb a 38).
Proof.
  induction l as [|x l IH]; [reflexivity|].
  destruct l as [|y l'].
  - cbn. now rewrite orb_false_r.
  - change ((x :: y :: l') ++ [a]) with (x :: (y :: l') ++ [a]).
    change (has_and_and (x :: (y :: l') ++ [a]))
      with ((N.eqb x 38 && N.eqb y 38) || has_and_and ((y :: l') ++ [a])).
    rewrite IH.
    change (has_and_and (x :: y :: l'))
      with ((N.eqb x 38 && N.eqb y 38) || has_and_and (y :: l')).
    rewrite <- orb_assoc. do 2 f_equal.
    cbn [rev]. destruct (rev l' ++ [y]) as [|c r] eqn:E; [|reflexivity].
    now destruct (rev l').
Qed.

(** No part of the split contains the separator: [cur] does not, and
    its last character and the next one are not the separator. *)
Lemma split_and_parts (n : nat) :
  forall s cur,
    length s <= n ->
    has_and_and (rev cur) = false ->
    (match cur, s with
     | c :: _, a :: _ => N.eqb c 38 && N.eqb a 38
     | _, _ => false
     end) = false ->
    forallb (fun p => negb (has_and_and p)) (split_and s cur) = true.
Proof.
  induction n as [|n IH]; intros s cur Hn Hcur Hedge.
  - destruct s; [|cbn in Hn; lia]. cbn. now rewrite Hcur.
  - destruct s as [|a [|b s']].
    + cbn. now rewrite Hcur.
    + cbn [split_and forallb rev]. rewrite has_and_and_snoc, Hcur.
      rewrite rev_involutive. cbn [orb].
      destruct cur as [|c cur']; [reflexivity|]. now rewrite Hedge.
    + rewrite split_and_two. cbn [length] in Hn.
      destruct (N.eqb a 38 && N.eqb b 38) eqn:E.
      * cbn [forallb]. rewrite Hcur. cbn [negb andb].
        apply IH; [lia|reflexivity|reflexivity].
      * apply IH; [cbn [length]; lia| |exact E].
        cbn [rev]. rewrite has_and_and_snoc, Hcur, rev_involutive. cbn [orb].
        destruct cur as [|c cur']; [reflexivity|exact Hedge].
Qed.

(** X13. The script of the configuration always gives at least one
    step; every step is stripped, so that it neither starts nor ends
    with white space, and no step contains the separator of line
    161. *)
Theorem translate_script_steps (script : str) :
  translate_script script <> []
  /\ forall step,
       In step (translate_script script) ->
       strip step = step
       /\ head_nonspace step = true
       /\ head_nonspace (rev step) = true
       /\ has_and_and step = false.
Proof.
  unfold translate_script. split.
  - pose proof (split_and_not_nil (length script) script [] (le_n _)) as H.
    destruct (split_and script []); [contradiction|discriminate].
  - intros step Hin. apply in_map_iff in Hin as (part & <- & Hpart).
    destruct (strip_ends part) as [H1 H2].
    split; [now apply strip_id|]. split; [exact H1|]. split; [exact H2|].
    pose proof (split_and_parts (length script) script [] (le_n _)
                  eq_refl eq_refl) as P.
    rewrite forallb_forall in P. specialize (P part Hpart).
    apply negb_true_iff in P.
    destruct (strip_inside part) as (p & q & E). rewrite E in P.
    apply has_and_and_app in P as [_ P]. now apply has_and_and_app in P as [P _].
Qed.

(** ** The summary *)

Lemma verdicts_app (a b : list event) :
  verdicts (a ++ b) = verdicts a ++ verdicts b.
Proof.
  induction a as [|e a IH]; [reflexivity|].
  destruct e as [|m| | | | | |]; cbn [app verdicts]; try exact IH.
  destruct m; cbn [app]; now rewrite ?IH.
Qed.

Lemma verdicts_variable_lines (items : dict) : verdicts (variable_lines items) = [].
Proof. induction items as [|[k v] items IH]; [reflexivity|exact IH]. Qed.

Lemma verdicts_run_steps (rust_ver : str) (cmd_env : dict) (script : list str) :
  forall w, verdicts (trace (run_steps rust_ver cmd_env script w)) = [].
Proof.
  induction script as [|cmd script IH]; intros w; [reflexivity|].
  rewrite run_steps_cons.
  destruct (substitute cmd_env cmd) as [cmd1|e]; [|reflexivity].
  destruct (run_shell (step_command rust_ver cmd1) cmd_env w) as [[|] w1];
    [|reflexivity].
  specialize (IH w1).
  destruct (run_steps rust_ver cmd_env script w1) as [[r w2] t2].
  exact IH.
Qed.

Lemma verdicts_run_script (script : list str) (rust_ver : str) (seq_id : nat)
    (env : dict) (w : World) :
  verdicts (trace (run_script script rust_ver seq_id env w))
  = match outcome (run_script script rust_ver seq_id env w) with
    | Ok success => [success]
    | Raise _ => []
    end.
Proof.
  rewrite run_script_steps.
  pose proof (verdicts_run_steps rust_ver (effective_env rust_ver seq_id env)
                script w) as V.
  destruct (run_steps rust_ver (effective_env rust_ver seq_id env) script w)
    as [[[ok|e] w'] t]; unfold outcome, trace in *; cbn [fst snd] in *;
    unfold run_header; cbn [app verdicts];
    rewrite ?verdicts_app, verdicts_variable_lines, V; reflexivity.
Qed.

Lemma exec_specs_verdicts (script : list str) (specs : list run_spec) :
  forall results w res,
    outcome (exec_specs run_script script specs results w) = Ok res ->
    exists new,
      res = results ++ new
      /\ List.map result_key new = List.map spec_key specs
      /\ List.map snd new
         = verdicts (trace (exec_specs run_script script specs results w))
      /\ List.map result_key new
         = run_starts (trace (exec_specs run_script script specs results w)).
Proof.
  induction specs as [|sp specs IH]; intros results w res.
  - cbn. intros H. injection H as <-. exists []. now rewrite app_nil_r.
  - cbn [exec_specs]. unfold bind.
    pose proof (verdicts_run_script script (rs_version sp) (rs_index sp)
                  (rs_env sp) w) as V.
    destruct (run_script_observed script (rs_version sp) (rs_index sp)
                (rs_env sp) w) as (_ & _ & Hst).
    destruct (run_script script (rs_version sp) (rs_index sp) (rs_env sp) w)
      as [[[ok|e] w1] t1]; unfold trace, outcome in *; cbn [fst snd] in *;
      [|discriminate].
    specialize (IH (results ++ [(rs_version sp, rs_index sp, ok)]) w1 res).
    destruct (exec_specs run_script script specs
                (results ++ [(rs_version sp, rs_index sp, ok)]) w1)
      as [[r w2] t2]. cbn [fst snd] in *.
    intros H. destruct (IH H) as (new & -> & Hk & Hv & Hs).
    exists ((rs_version sp, rs_index sp, ok) :: new).
    rewrite <- app_assoc. split; [reflexivity|].
    cbn [List.map]. rewrite verdicts_app, run_starts_app, V, Hst, Hk, <- Hv.
    rewrite <- Hs, Hk. now repeat split.
Qed.

(** X14. When [main] returns, the last thing it prints is the summary:
    the blank line, the heading, and one line for every result. The
    results are the runs that were started, in the order they were
    started, each with the verdict that was printed when the run
    ended. *)
Theorem summary_lists_the_runs (travis : config) (args : list str)
    (w : World) (results : list run_result) :
  outcome (main travis args w) = Ok results ->
  exists t,
    trace (main travis args w)
    = t ++ PrintBlank :: Say MsgResults :: result_lines results
    /\ List.map result_key results = run_starts t
    /\ List.map snd results = verdicts t.
Proof.
  rewrite main_unfold.
  destruct (args_loop_cases (cfg_rust travis) args [] [] w)
    as [(sel & ->)|(arg & _ & ->)]; [|discriminate].
  cbv zeta. rewrite vers_loop_exec.
  pose proof (exec_specs_verdicts (translate_script (cfg_script travis))
                (flat_map (fun v => spec_expand v (env_strings_of travis)
                                      (matrix_includes_of travis))
                   (resolve_vers (cfg_rust travis) (fst sel) (snd sel)))
                [] w) as V.
  destruct (exec_specs run_script _ _ [] w) as [[[res|e] w2] t2];
    unfold outcome, trace in *; cbn [fst snd] in *; [|discriminate].
  intros H. injection H as <-.
  destruct (V res eq_refl) as (new & -> & _ & Hv & Hs). cbn [app] in *.
  exists (EnsureLogDir
          :: Say (MsgTestsWillRun
                    (resolve_vers (cfg_rust travis) (fst sel) (snd sel)))
          :: t2).
  cbn [app run_starts verdicts]. now repeat split.
Qed.


(** ** The log of a run *)

Lemma run_steps_trace (rust_ver : str) (cmd_env : dict) (script : list str) :
  forall w,
    trace (run_steps rust_ver cmd_env script w)
    = flat_map step_events
        (sh_events (trace (run_steps rust_ver cmd_env script w))).
Proof.
  induction script as [|cmd script IH]; intros w; [reflexivity|].
  rewrite run_steps_cons.
  destruct (substitute cmd_env cmd) as [cmd1|e]; [|reflexivity].
  destruct (run_shell (step_command rust_ver cmd1) cmd_env w) as [[|] w1];
    [|reflexivity].
  specialize (IH w1).
  destruct (run_steps rust_ver cmd_env script w1) as [[r w2] t2].
  unfold trace in *. cbn [snd] in *.
  cbn [sh_events flat_map step_events fst snd app]. now rewrite <- IH.
Qed.

(** X15. The trace of a run is its header, then for every child
    process that was started its command line, written to the log and
    flushed before the child starts, the child, and the line
    [Command failed.] after a child that failed and after no other;
    then, unless the run raised, the verdict and the closing of the
    log. Nothing else is printed or written during a run. *)
Theorem log_records_every_child (script : list str) (rust_ver : str)
    (seq_id : nat) (env : dict) (w : World) :
  trace (run_script script rust_ver seq_id env w)
  = run_header rust_ver seq_id env
    ++ flat_map step_events
         (sh_events (trace (run_script script rust_ver seq_id env w)))
    ++ match outcome (run_script script rust_ver seq_id env w) with
       | Ok success => [Say (MsgOutcome success); LogClose]
       | Raise _ => []
       end.
Proof.
  destruct (run_script_observed script rust_ver seq_id env w) as (_ & -> & _).
  rewrite <- run_steps_trace, run_script_steps.
  destruct (run_steps rust_ver (effective_env rust_ver seq_id env) script w)
    as [[[ok|e] w'] t]; unfold outcome, trace; cbn [fst snd];
    [reflexivity|now rewrite app_nil_r].
Qed.

(** ** Environment strings that are well formed *)

(** X16. An environment string that is written as [NAME=value] pairs
    separated by one space, with distinct names, every value with white
    space between double quotes and without a double quote inside, and
    no value starting with a double quote, gives exactly these pairs,
    in their order. *)
Theorem parse_env_vars_well_formed (d : dict) :
  NoDup (List.map fst d) ->
  forallb entry_ok d = true ->
  no_leading_dquote d = true ->
  parse_env_vars (serialize d) = d.
Proof.
  intros Hnd Hok Hq. apply read_back; [exact Hok| |exact Hnd].
  now apply no_leading_dquote_safe.
Qed.

(** X17. An assignment without a value gives the empty string. An
    assignment of two double quotes does not: the quoted form of line
    102 needs one character at least between the quotes, so the value
    is the two double quotes themselves. *)
Theorem parse_env_vars_empty_values (k : str) :
  is_name k = true ->
  parse_env_vars (k ++ [61%N]) = [(k, [])]
  /\ parse_env_vars (k ++ [61%N; dquote; dquote]) = [(k, [dquote; dquote])].
Proof.
  intros Hk. split.
  - apply (read_back [(k, [])]); [|reflexivity|repeat constructor; intros []].
    unfold entry_ok. cbn. now rewrite Hk.
  - apply (read_back [(k, [dquote; dquote])]);
      [|reflexivity|repeat constructor; intros []].
    unfold entry_ok. cbn. now rewrite Hk.
Qed.

End TestMatrix.

(** * The theorems at sample inputs *)

(** The round trip of C7 at [quoted_sample], whose names differ. *)
Lemma parse_serialize_roundtrip_witness :
  parse_env_vars (serialize (parse_env_vars quoted_sample))
  = parse_env_vars quoted_sample.
Proof.
  apply parse_serialize_roundtrip. left. vm_compute.
  repeat constructor; simpl; intuition discriminate.
Defined.

(** C7 as stated fails at [reassigned_sample]: the string has no
    malformed token; its map binds [A] to a double quote and [z], and
    [C] to [x], a double quote and [y]; the serialization puts [A]
    first, so that the two double quotes now enclose a value, and the
    second parse binds [A] to [z C=x] and nothing else. *)
Lemma reassigned_name_breaks_roundtrip :
  env_string reassigned_sample
  /\ parse_env_vars reassigned_sample
     = [(lit "A", dquote :: lit "z"); (lit "C", lit "x" ++ dquote :: lit "y")]
  /\ serialize (parse_env_vars reassigned_sample)
     = lit "A=" ++ dquote :: lit "z C=x" ++ dquote :: lit "y"
  /\ parse_env_vars (serialize (parse_env_vars reassigned_sample))
     = [(lit "A", lit "z C=x")]
  /\ parse_env_vars (serialize (parse_env_vars reassigned_sample))
     <> parse_env_vars reassigned_sample.
Proof.
  split; [|repeat split; try reflexivity; vm_compute; discriminate].
  change (env_string
            ([] ++ (lit "A" ++ 61%N :: lit "0")
             ++ (lit " " ++ (lit "C" ++ 61%N :: lit "x" ++ dquote :: lit "y")
                 ++ (lit " " ++ (lit "A" ++ 61%N :: dquote :: lit "z") ++ [])))).
  apply string_tokens; [reflexivity|now apply token_plain|].
  apply tail_token; [discriminate|reflexivity|now apply token_plain|].
  apply tail_token; [discriminate|reflexivity|now apply token_plain|].
  now apply tail_end.
Qed.

(** C8 at the argument [zzz]. *)
Lemma unrecognized_argument_is_usage_error_witness :
  exists arg,
    In arg [lit "zzz"]
    /\ main sample_alnum sample_shell [] sample_join sample_config [lit "zzz"] tt
       = (Raise (SystemExit 1), tt, [EnsureLogDir; Say (MsgUnknownArgument arg)])
    /\ exit_status
         (outcome (main sample_alnum sample_shell [] sample_join sample_config
                     [lit "zzz"] tt)) = 1
    /\ run_starts
         (trace (main sample_alnum sample_shell [] sample_join sample_config
                   [lit "zzz"] tt)) = []
    /\ sh_events
         (trace (main sample_alnum sample_shell [] sample_join sample_config
                   [lit "zzz"] tt)) = []
    /\ log_events
         (trace (main sample_alnum sample_shell [] sample_join sample_config
                   [lit "zzz"] tt)) = [].
Proof.
  apply (unrecognized_argument_is_usage_error sample_alnum unit sample_shell []
           sample_join sample_config [lit "zzz"] tt).
  reflexivity.
Defined.

(** ** The testable properties of the specification (section 8) *)

(** Property 5: two environment strings and no row give two run
    specifications, numbered 0 and 1. *)
Example two_alternatives_two_runs :
  spec_expand (lit "stable") [lit "X=1"; lit "X=2"] []
  = [ {| rs_version := lit "stable"; rs_index := 0;
         rs_env := [(lit "X", lit "1")] |};
      {| rs_version := lit "stable"; rs_index := 1;
         rs_env := [(lit "X", lit "2")] |} ].
Proof. reflexivity. Qed.

(** Property 6: a row pinned to [stable] gives nothing for [beta]. *)
Example pinned_row_is_left_out :
  spec_expand (lit "beta") [[]]
    [ {| row_rust := Some (lit "stable"); row_env := Some (lit "Y=9") |} ]
  = [ {| rs_version := lit "beta"; rs_index := 0; rs_env := [] |} ]
  /\ spec_expand (lit "stable") [[]]
       [ {| row_rust := Some (lit "stable"); row_env := Some (lit "Y=9") |} ]
     = [ {| rs_version := lit "stable"; rs_index := 0; rs_env := [] |};
         {| rs_version := lit "stable"; rs_index := 1;
            rs_env := [(lit "Y", lit "9")] |} ].
Proof. split; reflexivity. Qed.

(** Property 8: when the first of three steps fails, one child process
    was run and the run has failed. *)
Example first_of_three_steps_fails :
  outcome (run_script sample_alnum sample_shell [] sample_join
             [lit "one"; lit "two"; lit "three"] (lit "stable") 0 [] tt)
  = Ok false
  /\ List.map (fun ev => fst (fst ev))
       (sh_events
          (trace (run_script sample_alnum sample_shell [] sample_join
                    [lit "one"; lit "two"; lit "three"] (lit "stable") 0 [] tt)))
     = [lit "multirust run stable one"].
Proof. split; reflexivity. Qed.

(** A matrix run in which every run fails returns, and the exit status
    is zero. *)
Example failed_runs_exit_zero :
  outcome (main sample_alnum sample_shell [] sample_join sample_config [] tt)
  = Ok [(lit "a", 0, false); (lit "b", 0, false); (lit "c", 0, false)]
  /\ exit_status
       (outcome (main sample_alnum sample_shell [] sample_join sample_config
                   [] tt)) = 0.
Proof. split; reflexivity. Qed.

(** X1 at the step [cargo test --verbose]. *)
Lemma substitute_without_dollar_witness :
  substitute sample_alnum [] (lit "cargo test --verbose")
  = Ok (lit "cargo test --verbose").
Proof.
  apply (substitute_without_dollar sample_alnum [] (lit "cargo test --verbose")).
  reflexivity.
Defined.

(** X2 at the step [echo $X.] with [X] bound to [hello world]. *)
Lemma substitute_dollar_name_witness :
  substitute sample_alnum [(lit "X", lit "hello world")] (lit "echo $X.")
  = Ok (lit "echo hello world.").
Proof.
  apply (substitute_dollar_name sample_alnum [(lit "X", lit "hello world")]
           (lit "echo ") (lit "X") (lit ".")); reflexivity.
Defined.

(** X3 at the steps [echo ${X}s] and [echo ${X}]. *)
Lemma substitute_dollar_braces_witness :
  substitute sample_alnum [(lit "X", lit "hello world")] (lit "echo ${X}s")
  = Ok (lit "echo hello worlds")
  /\ substitute sample_alnum [(lit "X", lit "hello world")] (lit "echo ${X}")
     = Ok (lit "echo ${X}").
Proof.
  split.
  - apply (substitute_dollar_braces sample_alnum [(lit "X", lit "hello world")]
             (lit "echo ") (lit "X") (lit "s")); reflexivity.
  - apply (substitute_dollar_braces sample_alnum [(lit "X", lit "hello world")]
             (lit "echo ") (lit "X") []); reflexivity.
Defined.

(** X6 at a string of words without assignment. *)
Lemma parse_env_vars_without_equals_witness :
  parse_env_vars (lit "  no assignment here ") = [].
Proof.
  apply (parse_env_vars_without_equals (lit "  no assignment here ")).
  reflexivity.
Defined.

(** X10 at the sample configuration. *)
Lemma script_without_dollar_never_raises_witness :
  (exists results,
     outcome (main sample_alnum sample_shell [] sample_join sample_config [] tt)
     = Ok results)
  \/ outcome (main sample_alnum sample_shell [] sample_join sample_config [] tt)
     = Raise (SystemExit 1).
Proof.
  apply (script_without_dollar_never_raises sample_alnum unit sample_shell []
           sample_join sample_config [] tt).
  reflexivity.
Defined.

(** X11 at the default versions [a], [b], [c] and the arguments
    [-a b]. *)
Lemma selected_versions_witness :
  incl (resolve_vers [lit "a"; lit "b"; lit "c"] [lit "b"] [lit "a"])
    [lit "a"; lit "b"; lit "c"]
  /\ (NoDup [lit "a"; lit "b"; lit "c"] \/ [lit "b"] <> [] ->
      NoDup (resolve_vers [lit "a"; lit "b"; lit "c"] [lit "b"] [lit "a"]))
  /\ (forall a,
        In a [lit "-a"; lit "b"] ->
        mem a [lit "a"; lit "b"; lit "c"] = false ->
        ~ In (tl a) (resolve_vers [lit "a"; lit "b"; lit "c"] [lit "b"] [lit "a"])).
Proof.
  apply (selected_versions unit [lit "a"; lit "b"; lit "c"]
           [lit "-a"; lit "b"] tt tt ([lit "b"], [lit "a"]) []).
  reflexivity.
Defined.

(** X14 at the sample configuration, where every run fails. *)
Lemma summary_lists_the_runs_witness :
  exists t,
    trace (main sample_alnum sample_shell [] sample_join sample_config [] tt)
    = t ++ PrintBlank :: Say MsgResults
        :: result_lines
             [(lit "a", 0, false); (lit "b", 0, false); (lit "c", 0, false)]
    /\ List.map result_key
         [(lit "a", 0, false); (lit "b", 0, false); (lit "c", 0, false)]
       = run_starts t
    /\ List.map snd
         [(lit "a", 0, false); (lit "b", 0, false); (lit "c", 0, false)]
       = verdicts t.
Proof.
  apply (summary_lists_the_runs sample_alnum unit sample_shell [] sample_join
           sample_config [] tt).
  reflexivity.
Defined.

(** X16 at the pairs [A=1] and [B], the latter with the value
    [x y]. *)
Lemma parse_env_vars_well_formed_witness :
  parse_env_vars (serialize [(lit "A", lit "1"); (lit "B", lit "x y")])
  = [(lit "A", lit "1"); (lit "B", lit "x y")].
Proof.
  apply (parse_env_vars_well_formed [(lit "A", lit "1"); (lit "B", lit "x y")]).
  - repeat constructor; cbn; intuition discriminate.
  - reflexivity.
  - reflexivity.
Defined.

(** X17 at the name [FOO]. *)
Lemma parse_env_vars_empty_values_witness :
  parse_env_vars (lit "FOO=") = [(lit "FOO", [])]
  /\ parse_env_vars (lit "FOO" ++ [61%N; dquote; dquote])
     = [(lit "FOO", [dquote; dquote])].
Proof.
  apply (parse_env_vars_empty_values (lit "FOO")). reflexivity.
Defined.
